(** * News archive updater (scripts/update-news.py): model and properties

    A shallow embedding of the source filter, the title and date normalizers,
    the archive merger and the per-company loop of [main].

    Python [str] values are modelled as [string]; a character is read as the
    code point U+0000..U+00FF it denotes, which is the range on which
    [str.lower], [str.strip] and the [re] classes used by [strptime] are
    modelled below. Exceptions are explicit: a computation ends in
    [Returns], [Raises] or, for the fuel-bounded loop, [Diverges]. *)

From Stdlib Require Import Ascii NArith ZArith Lia.
From Stdlib Require String.
From stdpp Require Import gmap strings list fin_maps sorting.

(** ** Python string primitives *)

Module PyStr.

Definition code (c : ascii) : N := N_of_ascii c.

(** [str.isspace] on one character: TAB..CR, FS..US, SPACE, NEL, NBSP. *)
Definition is_space (c : ascii) : bool :=
  let n := code c in
  ((9 <=? n) && (n <=? 13) || (28 <=? n) && (n <=? 32)
   || (n =? 133) || (n =? 160))%N.

(** Characters with a lower-case mapping: A-Z and the Latin-1 capitals
    U+00C0..U+00DE except the multiplication sign U+00D7. *)
Definition is_upper (c : ascii) : bool :=
  let n := code c in
  ((65 <=? n) && (n <=? 90)
   || (192 <=? n) && (n <=? 222) && negb (n =? 215))%N.

Definition lower_char (c : ascii) : ascii :=
  if is_upper c then ascii_of_N (code c + 32) else c.

(** [s.lower()] *)
Fixpoint lower (s : string) : string :=
  match s with
  | EmptyString => EmptyString
  | String c s' => String (lower_char c) (lower s')
  end.

(** [s.lstrip()] *)
Fixpoint lstrip (s : string) : string :=
  match s with
  | EmptyString => EmptyString
  | String c s' => if is_space c then lstrip s' else s
  end.

(** [s.rstrip()] *)
Fixpoint rstrip (s : string) : string :=
  match s with
  | EmptyString => EmptyString
  | String c s' =>
      match rstrip s' with
      | EmptyString => if is_space c then EmptyString else String c EmptyString
      | r => String c r
      end
  end.

(** [s.strip()] *)
Definition strip (s : string) : string := rstrip (lstrip s).

(** [s[n:]] *)
Fixpoint drop (n : nat) (s : string) : string :=
  match n, s with
  | O, _ => s
  | S _, EmptyString => EmptyString
  | S n', String _ s' => drop n' s'
  end.

(** [s[:n]] *)
Fixpoint take (n : nat) (s : string) : string :=
  match n, s with
  | O, _ => EmptyString
  | S _, EmptyString => EmptyString
  | S n', String c s' => String c (take n' s')
  end.

(** [s.startswith(p)] *)
Definition startswith (p s : string) : bool := String.prefix p s.
Global Arguments startswith : simpl never.

(** [sub in s] *)
Fixpoint contains (sub s : string) : bool :=
  startswith sub s ||
  match s with
  | EmptyString => false
  | String _ s' => contains sub s'
  end.

(** Split at the last occurrence of a non-empty [sep]: the text before it
    and the text after it, or [None] when [sep] does not occur. *)
Fixpoint rpartition (sep s : string) : option (string * string) :=
  match s with
  | EmptyString => None
  | String c s' =>
      match rpartition sep s' with
      | Some (h, t) => Some (String c h, t)
      | None =>
          if startswith sep s
          then Some (EmptyString, drop (String.length sep) s)
          else None
      end
  end.

(** [s.rsplit(sep, 1)] for a non-empty [sep]. *)
Definition rsplit1 (sep s : string) : list string :=
  match rpartition sep s with
  | Some (h, t) => [h; t]
  | None => [s]
  end.

(** Truthiness of a [str]: non-empty. *)
Definition truthy (s : string) : bool :=
  match s with EmptyString => false | _ => true end.

End PyStr.

(** ** Outcomes of a Python computation *)

Inductive exn := ValueError | IndexError | FetchError.

Inductive outcome (A : Type) :=
| Returns (a : A)
| Raises (e : exn)
| Diverges.
Arguments Returns {A} a.
Arguments Raises {A} e.
Arguments Diverges {A}.

(** ** Configuration *)

Record company := {
  co_name : string; co_query : string; co_color : string; co_logo : string
}.

Definition COMPANIES : list company := [
  {| co_name := "Novo Nordisk"; co_query := "Novo Nordisk";
     co_color := "var(--purple)"; co_logo := "logos/novo-nordisk.png" |};
  {| co_name := "Hyundai E&C"; co_query := "Hyundai Engineering Construction";
     co_color := "var(--coral)"; co_logo := "logos/hyundai-enc.png" |};
  {| co_name := "Kiwoom Securities"; co_query := "Kiwoom Securities";
     co_color := "var(--teal)"; co_logo := "logos/kiwoom-securities.png" |};
  {| co_name := "Woori Financial Group"; co_query := "Woori Financial Group";
     co_color := "var(--amber)"; co_logo := "logos/woori-financial.png" |}
].

Definition ALLOWED_SOURCES : list string := [
  "Nikkei Asia"; "Financial Times"; "Bloomberg"; "South China Morning Post";
  "CHOSUNBIZ"; "The Korea Times"; "The Korea Herald"; "Reuters";
  "The Japan Times"; "Yonhap News Agency"; "CNBC"; "Barron's"; "WSJ"
].

Definition MAX_ITEMS_PER_FETCH : nat := 20.

(** ** Items *)

(** The dict with keys "title", "link", "pubDate", "source" built by
    [fetch_rss] and rebuilt by [normalize_item]. *)
Record item := {
  title : string; link : string; pubDate : string; source : string
}.

(** ** Source filter *)

Definition is_from_allowed_source (it : item) : bool :=
  let title_lower := PyStr.lower (title it) in
  let source_lower := PyStr.lower (source it) in
  existsb (fun src =>
             let src_lower := PyStr.lower src in
             PyStr.contains src_lower title_lower
             || PyStr.contains src_lower source_lower)
          ALLOWED_SOURCES.

(** ** Title normalizer: the [while " - " in title] loop of [normalize_item] *)

Definition SEP : string := " - ".

(** [any(trailing.lower() == src.lower() for src in ALLOWED_SOURCES)] *)
Definition is_source (trailing : string) : bool :=
  existsb (fun src => String.eqb (PyStr.lower trailing) (PyStr.lower src))
          ALLOWED_SOURCES.

(** One pass through the loop, from the state [(title, source)]. *)
Inductive pass :=
| Again (title source : string)   (* the segment was stripped *)
| Leave                           (* the loop test failed, or [break] *)
| Fault (e : exn).

Definition strip_pass (title source : string) : pass :=
  if PyStr.contains SEP title then
    match PyStr.rsplit1 SEP title with
    | [p0; p1] =>
        let trailing := PyStr.strip p1 in
        if is_source trailing
           || (PyStr.truthy source
               && String.eqb (PyStr.lower trailing) (PyStr.lower source))
        then Again (PyStr.strip p0)
                   (if PyStr.truthy source then source else trailing)
        else Leave
    | _ => Fault IndexError
    end
  else Leave.

Fixpoint strip_loop (fuel : nat) (title source : string)
  : outcome (string * string) :=
  match fuel with
  | O => Diverges
  | S fuel' =>
      match strip_pass title source with
      | Again title' source' => strip_loop fuel' title' source'
      | Leave => Returns (title, source)
      | Fault e => Raises e
      end
  end.

(** ** Date normalizer

    [datetime.strptime] is modelled after CPython's [_strptime] module
    (3.8 to 3.12) in the C locale: the format is compiled to a regular
    expression, matched from the start of the data with backtracking in
    priority order under [re.IGNORECASE], and the captured fields are
    converted and validated. Only the directives that occur in the formats
    of [parse_date] are modelled. *)

Module Re.

Inductive re :=
| Nul                     (* matches nothing: the empty alternation *)
| Eps                     (* the empty pattern *)
| Chr (c : ascii)         (* a literal character, case-insensitive *)
| ChrCS (c : ascii)       (* [(?-i:c)] *)
| Rng (lo hi : ascii)     (* [[lo-hi]] *)
| Digit                   (* [\d] *)
| Spaces                  (* [\s+] *)
| Cat (r1 r2 : re)
| Alt (r1 r2 : re)
| Opt (r : re).           (* [(r)?], greedy *)

(** The remainders left by [\s+], longest match first. *)
Fixpoint spaces_rests (s : string) : list string :=
  match s with
  | EmptyString => []
  | String c s' => if PyStr.is_space c then spaces_rests s' ++ [s'] else []
  end.

Definition is_digit (c : ascii) : bool :=
  ((48 <=? PyStr.code c) && (PyStr.code c <=? 57))%N.

Definition one (p : ascii -> bool) (s : string) : list string :=
  match s with
  | String c s' => if p c then [s'] else []
  | EmptyString => []
  end.

(** The remainders of [s] after each way [r] matches a prefix of [s], in
    the order a backtracking matcher tries them. *)
Fixpoint run (r : re) (s : string) : list string :=
  match r with
  | Nul => []
  | Eps => [s]
  | Chr c =>
      one (fun x => Ascii.eqb (PyStr.lower_char x) (PyStr.lower_char c)) s
  | ChrCS c => one (Ascii.eqb c) s
  | Rng lo hi =>
      one (fun x => (PyStr.code lo <=? PyStr.code x)%N
                    && (PyStr.code x <=? PyStr.code hi)%N) s
  | Digit => one is_digit s
  | Spaces => spaces_rests s
  | Cat r1 r2 => flat_map (run r2) (run r1 s)
  | Alt r1 r2 => run r1 s ++ run r2 s
  | Opt r1 => run r1 s ++ [s]
  end.

(** A literal word. *)
Fixpoint word (w : string) : re :=
  match w with
  | EmptyString => Eps
  | String c w' => Cat (Chr c) (word w')
  end.

Definition alts (rs : list re) : re := fold_right Alt Nul rs.
Definition cats (rs : list re) : re := fold_right Cat Eps rs.

(** Stable insertion of a word into a list ordered by decreasing length. *)
Fixpoint insert_by_len (w : string) (l : list string) : list string :=
  match l with
  | [] => [w]
  | x :: l' =>
      if (String.length x <=? String.length w)%nat then w :: l
      else x :: insert_by_len w l'
  end.

(** [sorted(to_convert, key=len, reverse=True)] *)
Definition by_len_desc (l : list string) : list string :=
  fold_right insert_by_len [] l.

(** [_strptime.TimeRE.__seqToRE]: an alternation of the non-empty list of
    names, longest first. *)
Definition seqToRE (names : list string) : re :=
  if forallb (fun w => negb (PyStr.truthy w)) names then Eps
  else alts (word <$> by_len_desc names).

End Re.

(** [time.tzname] and [time.daylight] of the running process. *)
Record env := { tzname : string * string; daylight : bool }.

Inductive directive := D_a | D_b | D_d | D_Y | D_m | D_H | D_M | D_S | D_Z | D_z.

Inductive tok := TChr (c : ascii) | TSpaces | TDir (d : directive).

Definition directive_of (c : ascii) : option directive :=
  match c with
  | "a" => Some D_a | "b" => Some D_b | "d" => Some D_d | "Y" => Some D_Y
  | "m" => Some D_m | "H" => Some D_H | "M" => Some D_M | "S" => Some D_S
  | "Z" => Some D_Z | "z" => Some D_z
  | _ => None
  end%char.

(** [TimeRE.pattern]: a run of white space in the format becomes [\s+], a
    [%x] becomes the group of directive [x]; [None] is the [ValueError] for a
    bad directive or a stray [%]. *)
Fixpoint compile_format (in_space : bool) (fmt : string) : option (list tok) :=
  match fmt with
  | EmptyString => Some []
  | String c fmt' =>
      if PyStr.is_space c then
        if in_space then compile_format true fmt'
        else cons TSpaces <$> compile_format true fmt'
      else if Ascii.eqb c "%" then
        match fmt' with
        | EmptyString => None
        | String x fmt'' =>
            match directive_of x with
            | Some d => cons (TDir d) <$> compile_format false fmt''
            | None => None
            end
        end
      else cons (TChr c) <$> compile_format false fmt'
  end.

Definition a_weekday : list string :=
  ["mon"; "tue"; "wed"; "thu"; "fri"; "sat"; "sun"].

Definition a_month : list string :=
  ["jan"; "feb"; "mar"; "apr"; "may"; "jun";
   "jul"; "aug"; "sep"; "oct"; "nov"; "dec"].

(** [LocaleTime.timezone], flattened. *)
Definition timezone_names (e : env) : list string :=
  ["utc"; "gmt"; PyStr.lower (fst (tzname e))]
  ++ (if daylight e then [PyStr.lower (snd (tzname e))] else []).

Definition directive_re (e : env) (d : directive) : Re.re :=
  let rng := Re.Rng in
  let c := Re.Chr in
  let dg := Re.Digit in
  match d with
  | D_d => (* 3[0-1]|[1-2]\d|0[1-9]|[1-9]| [1-9] *)
      Re.alts [Re.Cat (c "3") (rng "0" "1"); Re.Cat (rng "1" "2") dg;
               Re.Cat (c "0") (rng "1" "9"); rng "1" "9";
               Re.Cat (c " ") (rng "1" "9")]
  | D_H => (* 2[0-3]|[0-1]\d|\d *)
      Re.alts [Re.Cat (c "2") (rng "0" "3"); Re.Cat (rng "0" "1") dg; dg]
  | D_M => (* [0-5]\d|\d *)
      Re.alts [Re.Cat (rng "0" "5") dg; dg]
  | D_S => (* 6[0-1]|[0-5]\d|\d *)
      Re.alts [Re.Cat (c "6") (rng "0" "1"); Re.Cat (rng "0" "5") dg; dg]
  | D_Y => (* \d\d\d\d *)
      Re.cats [dg; dg; dg; dg]
  | D_m => (* 1[0-2]|0[1-9]|[1-9] *)
      Re.alts [Re.Cat (c "1") (rng "0" "2"); Re.Cat (c "0") (rng "1" "9");
               rng "1" "9"]
  | D_z => (* [+-]\d\d:?[0-5]\d(:?[0-5]\d(\.\d{1,6})?)?|(?-i:Z) *)
      let upto6 :=
        Re.Cat dg (Re.Opt (Re.Cat dg (Re.Opt (Re.Cat dg (Re.Opt
          (Re.Cat dg (Re.Opt (Re.Cat dg (Re.Opt dg))))))))) in
      Re.Alt
        (Re.cats [Re.Alt (c "+") (c "-"); dg; dg; Re.Opt (c ":");
                  rng "0" "5"; dg;
                  Re.Opt (Re.cats [Re.Opt (c ":"); rng "0" "5"; dg;
                                   Re.Opt (Re.Cat (c ".") upto6)])])
        (Re.ChrCS "Z")
  | D_a => Re.seqToRE a_weekday
  | D_b => Re.seqToRE a_month
  | D_Z => Re.seqToRE (timezone_names e)
  end%char.

Definition tok_re (e : env) (t : tok) : Re.re :=
  match t with
  | TChr c => Re.Chr c
  | TSpaces => Re.Spaces
  | TDir d => directive_re e d
  end.

Fixpoint first_some {A B : Type} (f : A -> option B) (l : list A) : option B :=
  match l with
  | [] => None
  | x :: l' => match f x with Some y => Some y | None => first_some f l' end
  end.

(** The text of [s] consumed up to the remainder [rest]. *)
Definition consumed (s rest : string) : string :=
  PyStr.take (String.length s - String.length rest) s.

(** [format_regex.match(data_string)]: the first match in priority order,
    as the captured groups and the unmatched remainder. *)
Fixpoint match_toks (e : env) (ts : list tok) (s : string)
  : option (list (directive * string) * string) :=
  match ts with
  | [] => Some ([], s)
  | t :: ts' =>
      first_some
        (fun rest =>
           match match_toks e ts' rest with
           | Some (caps, fin) =>
               Some (match t with
                     | TDir d => (d, consumed s rest) :: caps
                     | _ => caps
                     end, fin)
           | None => None
           end)
        (Re.run (tok_re e t) s)
  end.

Local Open Scope Z_scope.

(** A parsed [datetime]: the fields, and the UTC offset in microseconds of an
    aware value ([None] for a naive one). None of the formats has [%f], so
    the microsecond field is always 0 and is left out. *)
Record datetime := {
  year : Z; month : Z; day : Z; hour : Z; minute : Z; second : Z;
  utcoffset : option Z
}.

Definition digit_val (c : ascii) : Z := Z.of_N (PyStr.code c) - 48.

Fixpoint digits_val (acc : Z) (s : string) : option Z :=
  match s with
  | EmptyString => Some acc
  | String c s' =>
      if Re.is_digit c then digits_val (10 * acc + digit_val c) s' else None
  end.

(** [int(s)] on the strings that reach it here: an unsigned decimal numeral,
    white space around it ignored; [None] is the [ValueError]. *)
Definition py_int (s : string) : option Z :=
  match PyStr.strip s with
  | EmptyString => None
  | t => digits_val 0 t
  end.

(** [list.index] *)
Fixpoint index_of (w : string) (l : list string) : option Z :=
  match l with
  | [] => None
  | x :: l' => if String.eqb x w then Some 0 else Z.succ <$> index_of w l'
  end.

(** [s[i:j]] *)
Definition slice (i j : nat) (s : string) : string :=
  PyStr.take (j - i)%nat (PyStr.drop i s).

(** The conversion of a [%z] group to an offset in microseconds. *)
Definition parse_z (z0 : string) : option Z :=
  if String.eqb z0 "Z" then Some 0 else
  let colon i s := String.eqb (slice i (S i) s) ":" in
  let joined : option string :=
    if colon 3%nat z0 then
      let z := PyStr.take 3 z0 +:+ PyStr.drop 4 z0 in
      if (5 <? String.length z)%nat then
        if colon 5%nat z
        then Some (PyStr.take 5 z +:+ PyStr.drop 6 z)
        else None                    (* Inconsistent use of : *)
      else Some z
    else Some z0 in
  z ← joined;
  hours ← py_int (slice 1 3 z);
  minutes ← py_int (slice 3 5 z);
  seconds ← (if PyStr.truthy (slice 5 7 z) then py_int (slice 5 7 z)
             else Some 0);
  let remainder := PyStr.drop 8 z in
  let padding := PyStr.take (6 - String.length remainder) "000000" in
  fraction ← py_int (remainder +:+ padding);
  let gmtoff := hours * 3600 + minutes * 60 + seconds in
  let micros := gmtoff * 1000000 + fraction in
  Some (if PyStr.startswith "-" z then - micros else micros).

(** Storing one captured group into the fields being assembled. *)
Definition set_field (dt : datetime) (cap : directive * string)
  : option datetime :=
  let '(d, text) := cap in
  let upd f := f <$> py_int text in
  match d with
  | D_Y => upd (fun v => {| year := v; month := month dt; day := day dt;
      hour := hour dt; minute := minute dt; second := second dt;
      utcoffset := utcoffset dt |})
  | D_m => upd (fun v => {| year := year dt; month := v; day := day dt;
      hour := hour dt; minute := minute dt; second := second dt;
      utcoffset := utcoffset dt |})
  | D_b => (fun i => {| year := year dt; month := i + 1; day := day dt;
      hour := hour dt; minute := minute dt; second := second dt;
      utcoffset := utcoffset dt |}) <$> index_of (PyStr.lower text) a_month
  | D_d => upd (fun v => {| year := year dt; month := month dt; day := v;
      hour := hour dt; minute := minute dt; second := second dt;
      utcoffset := utcoffset dt |})
  | D_H => upd (fun v => {| year := year dt; month := month dt; day := day dt;
      hour := v; minute := minute dt; second := second dt;
      utcoffset := utcoffset dt |})
  | D_M => upd (fun v => {| year := year dt; month := month dt; day := day dt;
      hour := hour dt; minute := v; second := second dt;
      utcoffset := utcoffset dt |})
  | D_S => upd (fun v => {| year := year dt; month := month dt; day := day dt;
      hour := hour dt; minute := minute dt; second := v;
      utcoffset := utcoffset dt |})
  | D_z => (fun off => {| year := year dt; month := month dt; day := day dt;
      hour := hour dt; minute := minute dt; second := second dt;
      utcoffset := Some off |}) <$> parse_z text
  | D_a => (fun _ => dt) <$> index_of (PyStr.lower text) a_weekday
  | D_Z => Some dt        (* only [tm_isdst], which [datetime] drops *)
  end.

Fixpoint set_fields (dt : datetime) (caps : list (directive * string))
  : option datetime :=
  match caps with
  | [] => Some dt
  | cap :: caps' => dt' ← set_field dt cap; set_fields dt' caps'
  end.

Definition is_leap (y : Z) : bool :=
  ((y mod 4 =? 0) && (negb (y mod 100 =? 0) || (y mod 400 =? 0)))%Z.

Definition days_in_month (y m : Z) : Z :=
  if (m =? 2)%Z then (if is_leap y then 29 else 28)
  else if ((m =? 4) || (m =? 6) || (m =? 9) || (m =? 11))%Z then 30 else 31.

(** The range checks of the [date], [datetime] and [timezone] constructors. *)
Definition valid_datetime (dt : datetime) : bool :=
  ((1 <=? year dt) && (year dt <=? 9999)
   && (1 <=? month dt) && (month dt <=? 12)
   && (1 <=? day dt) && (day dt <=? days_in_month (year dt) (month dt))
   && (0 <=? hour dt) && (hour dt <=? 23)
   && (0 <=? minute dt) && (minute dt <=? 59)
   && (0 <=? second dt) && (second dt <=? 59)
   && match utcoffset dt with
      | Some off => (-86400000000 <? off) && (off <? 86400000000)
      | None => true
      end)%Z.

Definition epoch_fields : datetime :=
  {| year := 1900; month := 1; day := 1; hour := 0; minute := 0; second := 0;
     utcoffset := None |}.

(** [datetime.strptime(data_string, format)] *)
Definition strptime (e : env) (data_string format : string)
  : outcome datetime :=
  match compile_format false format with
  | None => Raises ValueError
  | Some ts =>
      match match_toks e ts data_string with
      | None => Raises ValueError          (* does not match format *)
      | Some (caps, rest) =>
          if PyStr.truthy rest then Raises ValueError (* unconverted data *)
          else match set_fields epoch_fields caps with
               | None => Raises ValueError
               | Some dt =>
                   if valid_datetime dt then Returns dt
                   else Raises ValueError
               end
      end
  end.

Definition digit_chr (n : Z) : ascii := ascii_of_N (48 + Z.to_N (n mod 10)).

(** ["%02d" % n], ["%04d" % n] and ["%06d" % n] for [n] in range. *)
Definition pad2 (n : Z) : string :=
  String (digit_chr (n / 10)) (String (digit_chr n) EmptyString).
Definition pad4 (n : Z) : string := pad2 (n / 100) +:+ pad2 (n mod 100).
Definition pad6 (n : Z) : string := pad2 (n / 10000) +:+ pad4 (n mod 10000).

(** [datetime._format_offset] *)
Definition format_offset (off : Z) : string :=
  let sign := if (off <? 0)%Z then "-" else "+" in
  let a := Z.abs off in
  let hh := (a / 3600000000)%Z in
  let mm := (a mod 3600000000 / 60000000)%Z in
  let ss := (a mod 60000000 / 1000000)%Z in
  let us := (a mod 1000000)%Z in
  sign +:+ pad2 hh +:+ ":" +:+ pad2 mm
  +:+ (if ((ss =? 0) && (us =? 0))%Z then ""
       else ":" +:+ pad2 ss
            +:+ (if (us =? 0)%Z then "" else "." +:+ pad6 us)).

(** [dt.isoformat()] *)
Definition isoformat (dt : datetime) : string :=
  pad4 (year dt) +:+ "-" +:+ pad2 (month dt) +:+ "-" +:+ pad2 (day dt)
  +:+ "T" +:+ pad2 (hour dt) +:+ ":" +:+ pad2 (minute dt) +:+ ":"
  +:+ pad2 (second dt)
  +:+ match utcoffset dt with
      | Some off => format_offset off
      | None => ""
      end.

Local Close Scope Z_scope.

Definition formats : list string := [
  "%a, %d %b %Y %H:%M:%S %Z";
  "%a, %d %b %Y %H:%M:%S %z";
  "%Y-%m-%dT%H:%M:%S%z";
  "%Y-%m-%dT%H:%M:%SZ";
  "%Y-%m-%d %H:%M:%S"
].

(** The [for fmt in formats: try ... except ValueError: continue] loop. *)
Fixpoint try_formats (e : env) (date_str : string) (fmts : list string)
  : outcome (option datetime) :=
  match fmts with
  | [] => Returns None
  | fmt :: fmts' =>
      match strptime e date_str fmt with
      | Returns dt => Returns (Some dt)
      | Raises ValueError => try_formats e date_str fmts'
      | Raises ex => Raises ex
      | Diverges => Diverges
      end
  end.

Definition parse_date (e : env) (date_str : string) : outcome (option datetime) :=
  try_formats e date_str formats.

(** The first two lines of [normalize_item]: the spec's [normalizeDate]. *)
Definition normalize_date (e : env) (raw : string) : outcome string :=
  match parse_date e raw with
  | Returns (Some dt) => Returns (isoformat dt)
  | Returns None => Returns raw
  | Raises ex => Raises ex
  | Diverges => Diverges
  end.

(** The title part of [normalize_item]: the spec's [normalizeTitle]. The
    loop is run with one unit of fuel per character of the title, plus one. *)
Definition normalize_title (it : item) : outcome (string * string) :=
  strip_loop (S (String.length (title it))) (title it) (source it).

Definition normalize_item (e : env) (it : item) : outcome item :=
  match normalize_date e (pubDate it) with
  | Returns iso_date =>
      match normalize_title it with
      | Returns (title', source') =>
          Returns {| title := title'; link := link it;
                     pubDate := iso_date; source := source' |}
      | Raises ex => Raises ex
      | Diverges => Diverges
      end
  | Raises ex => Raises ex
  | Diverges => Diverges
  end.

(** ** Archive merger *)

(** The body of [for item in new_items], on the state
    [(existing, seen_links, added)]. *)
Definition merge_step (st : list item * gset string * nat) (it : item)
  : list item * gset string * nat :=
  let '(existing, seen_links, added) := st in
  if decide (link it ∈ seen_links) then st
  else (existing ++ [it], seen_links ∪ {[ link it ]}, S added).

(** Insertion before the first element with a key that is not greater. *)
Fixpoint insert_desc (x : item) (l : list item) : list item :=
  match l with
  | [] => [x]
  | y :: l' =>
      if String.ltb (pubDate x) (pubDate y) then y :: insert_desc x l'
      else x :: l
  end.

(** [existing.sort(key=lambda x: x.get("pubDate", ""), reverse=True)]: the
    sort is stable, also under [reverse=True], so its result is the one
    stable arrangement by decreasing key, which insertion builds. *)
Definition sort_by_pubDate_desc (l : list item) : list item :=
  foldr insert_desc [] l.

Definition merge_items (existing new_items : list item) : list item * nat :=
  let seen_links : gset string := list_to_set (link <$> existing) in
  let '(existing', _, added) :=
    foldl merge_step (existing, seen_links, 0) new_items in
  (sort_by_pubDate_desc existing', added).

(** ** The run: [main] *)

Record meta := { m_color : string; m_query : string; m_logo : string }.

(** The document of news-data.json. *)
Record data := {
  lastUpdated : string;
  companyMeta : gmap string meta;
  companies : gmap string (list item)
}.

Fixpoint mapM {A B : Type} (f : A -> outcome B) (l : list A)
  : outcome (list B) :=
  match l with
  | [] => Returns []
  | x :: l' =>
      match f x with
      | Returns y =>
          match mapM f l' with
          | Returns ys => Returns (y :: ys)
          | Raises ex => Raises ex
          | Diverges => Diverges
          end
      | Raises ex => Raises ex
      | Diverges => Diverges
      end
  end.

(** What the network access [fetch_rss (google_news_rss_url query)] gives:
    the items of the feed, or an exception (the request has a time-out). *)
Inductive fetched := Fetched (raw_items : list item) | Failed (ex : exn).

(** The [try] block of the loop body. *)
Definition try_company (e : env) (fetch : string -> fetched)
    (st : gmap string (list item) * nat) (co : company)
  : outcome (gmap string (list item) * nat) :=
  let '(cos, total_added) := st in
  let name := co_name co in
  match fetch (co_query co) with
  | Fetched raw_items =>
      let filtered := List.filter is_from_allowed_source raw_items in
      match mapM (normalize_item e) (take MAX_ITEMS_PER_FETCH filtered) with
      | Returns normalized =>
          let existing := default [] (cos !! name) in
          let '(merged, added) := merge_items existing normalized in
          Returns (<[name := merged]> cos, total_added + added)
      | Raises ex => Raises ex
      | Diverges => Diverges
      end
  | Failed ex => Raises ex
  end.

(** The loop body: the [try] block under [except Exception]. *)
Definition process_company (e : env) (fetch : string -> fetched)
    (st : gmap string (list item) * nat) (co : company)
  : outcome (gmap string (list item) * nat) :=
  match try_company e fetch st co with
  | Returns st' => Returns st'
  | Raises _ => Returns st
  | Diverges => Diverges
  end.

Fixpoint process_companies (e : env) (fetch : string -> fetched)
    (st : gmap string (list item) * nat) (cs : list company)
  : outcome (gmap string (list item) * nat) :=
  match cs with
  | [] => Returns st
  | co :: cs' =>
      match process_company e fetch st co with
      | Returns st' => process_companies e fetch st' cs'
      | Raises ex => Raises ex
      | Diverges => Diverges
      end
  end.

Definition upsert_meta (m : gmap string meta) (co : company)
  : gmap string meta :=
  <[co_name co := {| m_color := co_color co; m_query := co_query co;
                     m_logo := co_logo co |}]> m.

Record run := { saved : data; total_added : nat; exit_status : Z }.

(** [main], from the loaded document [d]; [now] is the time stamp that
    [save_data] writes. Reading and writing the file are outside the model. *)
Definition main (e : env) (fetch : string -> fetched)
    (now : string) (d : data) : outcome run :=
  let metas := foldl upsert_meta (companyMeta d) COMPANIES in
  match process_companies e fetch (companies d, 0) COMPANIES with
  | Returns (cos, total) =>
      Returns {| saved := {| lastUpdated := now; companyMeta := metas;
                             companies := cos |};
                 total_added := total; exit_status := 0 |}
  | Raises ex => Raises ex
  | Diverges => Diverges
  end.

(** ** Vocabulary of the specification *)

(** [sub] occurs in [s]. *)
Definition is_substring (sub s : string) : Prop :=
  exists pre post, s = pre +:+ sub +:+ post.

(** A string of white space only. *)
Fixpoint all_space (s : string) : Prop :=
  match s with
  | EmptyString => True
  | String c s' => PyStr.is_space c = true /\ all_space s'
  end.

Definition begins_with_space (s : string) : Prop :=
  match s with
  | String c _ => PyStr.is_space c = true
  | EmptyString => False
  end.

Fixpoint ends_with_space (s : string) : Prop :=
  match s with
  | EmptyString => False
  | String c EmptyString => PyStr.is_space c = true
  | String _ s' => ends_with_space s'
  end.

(** [k] is [s] with the white space around it taken off. *)
Definition trimmed (s k : string) : Prop :=
  exists l r, s = l +:+ k +:+ r /\ all_space l /\ all_space r
              /\ ~ begins_with_space k /\ ~ ends_with_space k.

(** [h] and [t] are the text before and after the last " - " of [s]. *)
Definition last_split (s h t : string) : Prop :=
  s = h +:+ SEP +:+ t
  /\ forall h' t', s = h' +:+ SEP +:+ t' -> String.length h' <= String.length h.

(** Case-insensitive equality, as the code tests it. *)
Definition ci_equal (a b : string) : Prop := PyStr.lower a = PyStr.lower b.

(** A segment that names a publisher: an allow-listed name, or the item's
    own non-empty source field [src]. *)
Definition attribution (src seg : string) : Prop :=
  (exists name, name ∈ ALLOWED_SOURCES /\ ci_equal seg name)
  \/ (src <> "" /\ ci_equal seg src).

(** The strip described by the specification, for an item whose source field
    is [src]. From a title and a current source: while the last segment of
    the title, trimmed, is an attribution, the segment and its delimiter are
    taken off, the kept title is trimmed, and an empty source adopts the
    trimmed segment; the strip ends at the first segment that is not an
    attribution, or when there is no delimiter. *)
Inductive strips_to (src : string)
  : string * string -> string * string -> Prop :=
| strips_stop ttl cur :
    (forall h t seg, last_split ttl h t -> trimmed t seg ->
                     ~ attribution src seg) ->
    strips_to src (ttl, cur) (ttl, cur)
| strips_segment ttl cur h t kept seg r :
    last_split ttl h t -> trimmed h kept -> trimmed t seg ->
    attribution src seg ->
    strips_to src (kept, if decide (cur = "") then seg else cur) r ->
    strips_to src (ttl, cur) r.

(** The set of links that occur in a list of items. *)
Definition links (l : list item) : gset string := list_to_set (link <$> l).
Global Arguments links : simpl never.

(** [a] may stand before [b] in an archived list: [a.pubDate >= b.pubDate]
    in the order of strings. *)
Definition not_older (a b : item) : Prop := (pubDate b ≤ pubDate a)%string.

(** A reader of the ISO-8601 extended form [YYYY-MM-DDThh:mm:ss], with an
    optional designator [Z] or [+hh:mm] / [-hh:mm], written from the standard
    and not from the code: the fields it denotes, when it is well formed. *)
Definition read_iso8601 (s : string) : option datetime :=
  let num i j := digits_val 0 (slice i j s) in
  let sep i c := String.eqb (slice i (S i) s) c in
  let tail := PyStr.drop 19 s in
  if sep 4 "-" && sep 7 "-" && sep 10 "T" && sep 13 ":" && sep 16 ":"
     && (19 <=? String.length s)
  then
    y ← num 0 4; mo ← num 5 7; d ← num 8 10;
    h ← num 11 13; mi ← num 14 16; sec ← num 17 19;
    off ← (if String.eqb tail "" then Some None
           else if String.eqb tail "Z" then Some (Some 0%Z)
           else if (String.length tail =? 6)
                   && String.eqb (slice 3 4 tail) ":"
                   && (String.eqb (slice 0 1 tail) "+"
                       || String.eqb (slice 0 1 tail) "-")
           then oh ← digits_val 0 (slice 1 3 tail);
                om ← digits_val 0 (slice 4 6 tail);
                let us := ((oh * 3600 + om * 60) * 1000000)%Z in
                Some (Some (if String.eqb (slice 0 1 tail) "-"
                            then (- us)%Z else us))
           else None);
    let dt := {| year := y; month := mo; day := d; hour := h; minute := mi;
                 second := sec; utcoffset := off |} in
    if valid_datetime dt then Some dt else None
  else None.

(** ** Notions used in the proofs *)

(** The source the loop carries is the item's field, or, when that field is
    empty, an adopted allow-listed name. *)
Definition carried (src cur : string) : Prop :=
  cur = src \/ (src = "" /\ is_source cur = true).

(** In a list ordered by decreasing length, only names of three or more
    characters come before "gmt". *)
Definition gmt_after_long (l : list string) : Prop :=
  exists pre post, l = pre ++ "gmt" :: post
                   /\ Forall (fun w => 3 <= String.length w) pre.

(** The archived list of one company after its turn in the loop, from the
    list [old] it had before: unchanged when the fetch fails, merged with the
    normalized qualifying items otherwise. *)
Definition entry_after (e : env) (fetch : string -> fetched)
    (old : option (list item)) (co : company) : option (list item) :=
  match fetch (co_query co) with
  | Failed _ => old
  | Fetched raw_items =>
      match mapM (normalize_item e)
                 (take MAX_ITEMS_PER_FETCH
                       (List.filter is_from_allowed_source raw_items)) with
      | Returns normalized => Some (merge_items (default [] old) normalized).1
      | _ => old
      end
  end.

(** ** A sample run *)

(** A process in UTC. *)
Definition utc_env : env := {| tzname := ("UTC", "UTC"); daylight := false |}.

Definition wire_1 : item :=
  {| title := "Hyundai E&C wins plant order - Reuters";
     link := "https://news.example.org/articles/1";
     pubDate := "Thu, 26 Feb 2026 08:00:00 GMT"; source := "Reuters" |}.

Definition wire_2 : item :=
  {| title := "Builder shares climb - Bloomberg";
     link := "https://news.example.org/articles/2";
     pubDate := "Fri, 27 Feb 2026 09:15:00 GMT"; source := "" |}.

Definition blog_post : item :=
  {| title := "Ten facts about builders - Some Blog";
     link := "https://blog.example.org/ten"; 
     pubDate := "Fri, 27 Feb 2026 07:00:00 GMT"; source := "Some Blog" |}.

(** The feed of the first company fails, the feed of the second one carries
    two qualifying items and one that does not qualify, the others are
    empty. *)
Definition sample_fetch (query : string) : fetched :=
  if String.eqb query "Novo Nordisk" then Failed FetchError
  else if String.eqb query "Hyundai Engineering Construction"
       then Fetched [wire_1; blog_post; wire_2]
       else Fetched [].

Definition empty_data : data :=
  {| lastUpdated := ""; companyMeta := ∅; companies := ∅ |}.

(** The archive that an earlier run over the same feed has left. *)
Definition archived_data : data :=
  {| lastUpdated := "2026-02-27T12:00:00+00:00";
     companyMeta := ∅;
     companies :=
       {[ "Hyundai E&C" :=
            [ {| title := "Builder shares climb";
                 link := "https://news.example.org/articles/2";
                 pubDate := "2026-02-27T09:15:00"; source := "Bloomberg" |};
              {| title := "Hyundai E&C wins plant order";
                 link := "https://news.example.org/articles/1";
                 pubDate := "2026-02-26T08:00:00"; source := "Reuters" |} ] ]}
  |}.

(** ** Feed address: [google_news_rss_url]

    [urllib.parse.urlencode] quotes keys and values with [quote_plus]: the
    text is encoded in UTF-8, a space becomes [+], the bytes of letters,
    digits and [_.-~] stand for themselves, every other byte becomes [%XX]
    with upper-case hexadecimal digits. *)

Module Url.

Definition is_alnum (c : ascii) : bool :=
  let n := PyStr.code c in
  ((48 <=? n) && (n <=? 57) || (65 <=? n) && (n <=? 90)
   || (97 <=? n) && (n <=? 122))%N.

(** [_ALWAYS_SAFE] *)
Definition always_safe (c : ascii) : bool :=
  is_alnum c
  || Ascii.eqb c "_" || Ascii.eqb c "." || Ascii.eqb c "-" || Ascii.eqb c "~".

Definition hex_digit (n : N) : ascii :=
  if (n <? 10)%N then ascii_of_N (48 + n) else ascii_of_N (55 + n).

(** ['%{:02X}'.format(byte)] *)
Definition percent (byte : N) : string :=
  String "%" (String (hex_digit (byte / 16))
                     (String (hex_digit (byte mod 16)) EmptyString)).

(** The UTF-8 bytes of one character of the range U+0000..U+00FF. *)
Definition utf8 (c : ascii) : list N :=
  let n := PyStr.code c in
  if (n <? 128)%N then [n] else [192 + n / 64; 128 + n mod 64]%N.

Definition quote_char (c : ascii) : string :=
  if Ascii.eqb c " " then "+"
  else if always_safe c then String c EmptyString
  else fold_right (fun b s => percent b +:+ s) "" (utf8 c).

(** [quote_plus(s)] with the default [safe=''] *)
Fixpoint quote_plus (s : string) : string :=
  match s with
  | EmptyString => EmptyString
  | String c s' => quote_char c +:+ quote_plus s'
  end.

(** ['&'.join(l)] *)
Fixpoint join_amp (l : list string) : string :=
  match l with
  | [] => ""
  | [x] => x
  | x :: l' => x +:+ "&" +:+ join_amp l'
  end.

(** [urlencode(params)] for a dict of strings, in insertion order. *)
Definition urlencode (params : list (string * string)) : string :=
  join_amp ((fun kv => quote_plus kv.1 +:+ "=" +:+ quote_plus kv.2) <$> params).

End Url.

Definition google_news_rss_url (query : string) : string :=
  "https://news.google.com/rss/search?"
  +:+ Url.urlencode [("q", query); ("hl", "en-US"); ("gl", "US");
                     ("ceid", "US:en")].

(** ** Feed items: the loop of [fetch_rss]

    The document that [ElementTree.fromstring] gives is a tree of elements,
    each with a tag, a text ([None] when there is none) and children. *)

Module ET.

#[warnings="-register-all"]
Inductive element :=
| Element (tag : string) (text : option string) (children : list element).

Definition tag (el : element) : string :=
  match el with Element t _ _ => t end.
Definition text (el : element) : option string :=
  match el with Element _ x _ => x end.
Definition children (el : element) : list element :=
  match el with Element _ _ cs => cs end.

(** [el.iter()]: the element and all elements below it, in document order. *)
Fixpoint iter (el : element) : list element :=
  match el with
  | Element _ _ cs =>
      el :: (fix below (l : list element) : list element :=
               match l with
               | [] => []
               | c :: l' => iter c ++ below l'
               end) cs
  end.

(** [el.iter(t)] *)
Definition iter_tag (t : string) (el : element) : list element :=
  List.filter (fun x => String.eqb (tag x) t) (iter el).

(** [el.find(t)]: the first child with tag [t]. *)
Definition find (t : string) (el : element) : option element :=
  List.find (fun x => String.eqb (tag x) t) (children el).

(** [el.findtext(t)]: the text of that child, [""] when it has none. *)
Definition findtext (t : string) (el : element) : option string :=
  match find t el with
  | Some c => Some (default "" (text c))
  | None => None
  end.

End ET.

(** The dict built from one [item] element. *)
Definition item_of_element (item_el : ET.element) : item :=
  {| title := PyStr.strip (default "" (ET.findtext "title" item_el));
     link := PyStr.strip (default "" (ET.findtext "link" item_el));
     pubDate := PyStr.strip (default "" (ET.findtext "pubDate" item_el));
     source :=
       match ET.find "source" item_el with
       | Some source_el =>
           match ET.text source_el with
           | Some t => if PyStr.truthy t then PyStr.strip t else ""
           | None => ""
           end
       | None => ""
       end |}.

(** [fetch_rss] from the parsed document on: the list it returns. *)
Definition fetch_rss_items (root : ET.element) : list item :=
  item_of_element <$> ET.iter_tag "item" root.

(** ** More vocabulary *)

Definition hex_val (c : ascii) : option N :=
  let n := PyStr.code c in
  if ((48 <=? n) && (n <=? 57))%N then Some (n - 48)%N
  else if ((65 <=? n) && (n <=? 70))%N then Some (n - 55)%N
  else if ((97 <=? n) && (n <=? 102))%N then Some (n - 87)%N
  else None.

(** Reading a query component back, as a server does: [+] is a space,
    [%XX] is the byte [XX], any other character is its own byte. *)
Fixpoint unquote_bytes (s : string) : option (list N) :=
  match s with
  | EmptyString => Some []
  | String c s' =>
      if Ascii.eqb c "+" then cons 32%N <$> unquote_bytes s'
      else if Ascii.eqb c "%" then
        match s' with
        | String h (String l s'') =>
            match hex_val h, hex_val l, unquote_bytes s'' with
            | Some a, Some b, Some bs => Some ((16 * a + b)%N :: bs)
            | _, _, _ => None
            end
        | _ => None
        end
      else cons (PyStr.code c) <$> unquote_bytes s'
  end.

(** UTF-8 decoding, for text of the range U+0000..U+00FF. *)
Fixpoint utf8_decode (bs : list N) : option string :=
  match bs with
  | [] => Some EmptyString
  | b :: bs' =>
      if (b <? 128)%N then String (ascii_of_N b) <$> utf8_decode bs'
      else if ((194 <=? b) && (b <=? 195))%N then
        match bs' with
        | b2 :: bs'' =>
            if ((128 <=? b2) && (b2 <=? 191))%N
            then String (ascii_of_N ((b - 192) * 64 + (b2 - 128)))
                   <$> utf8_decode bs''
            else None
        | [] => None
        end
      else None
  end.

Definition unquote_plus (s : string) : option string :=
  unquote_bytes s ≫= utf8_decode.

(** A character that may stand in the query part of an address without
    ending a parameter: unreserved, [+] or [%]. *)
Definition query_safe (c : ascii) : bool :=
  Url.always_safe c || Ascii.eqb c "+" || Ascii.eqb c "%".

Fixpoint all_chars (p : ascii -> bool) (s : string) : bool :=
  match s with
  | EmptyString => true
  | String c s' => p c && all_chars p s'
  end.

(** The order of two date-times by their fields, the year first. *)
Definition fields_compare (a b : datetime) : comparison :=
  match (year a ?= year b)%Z with
  | Eq =>
    match (month a ?= month b)%Z with
    | Eq =>
      match (day a ?= day b)%Z with
      | Eq =>
        match (hour a ?= hour b)%Z with
        | Eq =>
          match (minute a ?= minute b)%Z with
          | Eq => (second a ?= second b)%Z
          | c => c
          end
        | c => c
        end
      | c => c
      end
    | c => c
    end
  | c => c
  end.

(** The day number of a date, 1 for 0001-01-01, as [date.toordinal]. *)
Definition days_before_year (y : Z) : Z :=
  let p := (y - 1)%Z in (p * 365 + p / 4 - p / 100 + p / 400)%Z.

Fixpoint days_before_month (y : Z) (m : nat) : Z :=
  match m with
  | O => 0%Z
  | S m' => (days_before_month y m' + days_in_month y (Z.of_nat m))%Z
  end.

Definition ordinal (y m d : Z) : Z :=
  (days_before_year y + days_before_month y (Z.to_nat (m - 1)) + d)%Z.

(** The instant that a date-time denotes, in microseconds since
    1970-01-01T00:00:00Z. A value with a UTC offset denotes one; a value
    without an offset is a date and a time of day in no stated zone, and
    denotes none. *)
Definition instant_of (dt : datetime) : option Z :=
  match utcoffset dt with
  | Some off =>
      Some ((((ordinal (year dt) (month dt) (day dt) - 719163) * 86400
              + hour dt * 3600 + minute dt * 60 + second dt) * 1000000
             - off)%Z)
  | None => None
  end.

(** A process in the zone of New York. *)
Definition est_env : env := {| tzname := ("EST", "EDT"); daylight := true |}.

(** The number of items archived for the companies of a list. *)
Definition archive_size (cos : gmap string (list item)) (cs : list company)
  : nat :=
  sum_list ((fun co => length (default [] (cos !! co_name co))) <$> cs).

Definition meta_of (co : company) : meta :=
  {| m_color := co_color co; m_query := co_query co; m_logo := co_logo co |}.

(** Feed documents for examples. *)
Definition sample_feed : ET.element :=
  ET.Element "rss" None
    [ET.Element "channel" (Some "  ")
       [ET.Element "title" (Some "Search results") [];
        ET.Element "item" None
          [ET.Element "title" (Some "  Builder shares climb - Bloomberg ") [];
           ET.Element "link" (Some "https://news.example.org/articles/2") [];
           ET.Element "pubDate" (Some "Fri, 27 Feb 2026 09:15:00 GMT") [];
           ET.Element "source" None []];
        ET.Element "item" None
          [ET.Element "link" (Some " https://news.example.org/articles/3") []]]].

(** * Properties *)

(** ** Strings *)

Section StringFacts.

Implicit Types s t p sub sep : string.

Lemma app_cons c s t : String c s +:+ t = String c (s +:+ t).
Proof. reflexivity. Qed.

Lemma app_empty_l s : "" +:+ s = s.
Proof. reflexivity. Qed.

Lemma str_length_app s t :
  String.length (s +:+ t) = String.length s + String.length t.
Proof.
  induction s as [|c s IH]; [done|].
  rewrite app_cons. simpl. by rewrite IH.
Qed.

Lemma startswith_drop p s :
  PyStr.startswith p s = true -> s = p +:+ PyStr.drop (String.length p) s.
Proof.
  unfold PyStr.startswith. revert s.
  induction p as [|c p IH]; intros [|d s]; simpl; try done.
  destruct (ascii_dec c d) as [->|]; [|done].
  intros H. rewrite app_cons. f_equal. by apply IH.
Qed.

Lemma startswith_app p s : PyStr.startswith p (p +:+ s) = true.
Proof.
  unfold PyStr.startswith.
  induction p as [|c p IH]; [by destruct s|].
  rewrite app_cons. simpl. by destruct (ascii_dec c c).
Qed.

(** [sub in s] holds exactly when [s] can be cut around a copy of [sub]. *)
Lemma contains_spec sub s :
  PyStr.contains sub s = true <-> exists pre post, s = pre +:+ sub +:+ post.
Proof.
  split.
  - induction s as [|c s IH]; simpl.
    + rewrite orb_false_r. intros H%startswith_drop. by exists "", (PyStr.drop (String.length sub) "").
    + intros [H%startswith_drop | H]%orb_true_iff.
      * by exists "", (PyStr.drop (String.length sub) (String c s)).
      * destruct (IH H) as (pre & post & ->). by exists (String c pre), post.
  - intros (pre & post & ->).
    induction pre as [|c pre IH].
    + rewrite app_empty_l.
      destruct (sub +:+ post) eqn:E; simpl; rewrite <- E, startswith_app; done.
    + rewrite app_cons. simpl. rewrite IH. apply orb_true_r.
Qed.

Lemma rpartition_app sep s h t :
  PyStr.rpartition sep s = Some (h, t) -> s = h +:+ sep +:+ t.
Proof.
  revert h t. induction s as [|c s IH]; intros h t; simpl; [done|].
  destruct (PyStr.rpartition sep s) as [[h' t']|].
  - intros [= <- <-]. rewrite app_cons. f_equal. by apply IH.
  - destruct (PyStr.startswith sep (String c s)) eqn:E; [|done].
    intros [= <- <-]. by apply startswith_drop.
Qed.

(** The loop test and the split agree: [rsplit] finds a delimiter exactly
    when [in] does. *)
Lemma rpartition_None sep s :
  sep <> "" -> (PyStr.rpartition sep s = None <-> PyStr.contains sep s = false).
Proof.
  intros Hsep. induction s as [|c s IH]; simpl.
  - split; [|done]. intros _. rewrite orb_false_r.
    unfold PyStr.startswith. by destruct sep.
  - destruct (PyStr.rpartition sep s) as [[h t]|].
    + split; [done|]. intros [_ H]%orb_false_iff.
      apply IH in H. done.
    + destruct IH as [IH _]. rewrite (IH eq_refl), orb_false_r.
      destruct (PyStr.startswith sep (String c s)); done.
Qed.

Lemma length_lstrip s : String.length (PyStr.lstrip s) <= String.length s.
Proof.
  induction s as [|c s IH]; simpl; [done|].
  destruct (PyStr.is_space c); simpl; lia.
Qed.

Lemma length_rstrip s : String.length (PyStr.rstrip s) <= String.length s.
Proof.
  induction s as [|c s IH]; simpl; [done|].
  destruct (PyStr.rstrip s); [destruct (PyStr.is_space c)|]; simpl in *; lia.
Qed.

Lemma length_strip s : String.length (PyStr.strip s) <= String.length s.
Proof.
  unfold PyStr.strip.
  etrans; [apply length_rstrip | apply length_lstrip].
Qed.

(** [strip] takes off white space, and nothing else. *)
Lemma lstrip_spec s :
  exists l, s = l +:+ PyStr.lstrip s /\ all_space l.
Proof.
  induction s as [|c s (l & IH & Hl)]; [by exists ""|].
  simpl. destruct (PyStr.is_space c) eqn:E.
  - exists (String c l). rewrite app_cons. by rewrite <- IH.
  - by exists "".
Qed.

Lemma rstrip_spec s :
  exists r, s = PyStr.rstrip s +:+ r /\ all_space r.
Proof.
  induction s as [|c s (r & IH & Hr)]; [by exists ""|].
  simpl. destruct (PyStr.rstrip s) as [|d u].
  - rewrite app_empty_l in IH. subst r.
    destruct (PyStr.is_space c) eqn:E.
    + by exists (String c s).
    + by exists s.
  - exists r. rewrite app_cons. by rewrite <- IH.
Qed.

Lemma lstrip_no_space s : ~ begins_with_space (PyStr.lstrip s).
Proof.
  induction s as [|c s IH]; simpl; [tauto|].
  destruct (PyStr.is_space c) eqn:E; [done|]. simpl. congruence.
Qed.

Lemma rstrip_no_space s : ~ ends_with_space (PyStr.rstrip s).
Proof.
  induction s as [|c s IH]; simpl; [tauto|].
  destruct (PyStr.rstrip s) as [|d u].
  - destruct (PyStr.is_space c) eqn:E; simpl; [tauto | congruence].
  - exact IH.
Qed.

Lemma rstrip_keeps_begin s :
  ~ begins_with_space s -> ~ begins_with_space (PyStr.rstrip s).
Proof.
  destruct s as [|c s]; simpl; [tauto|]. intros Hc.
  destruct (PyStr.rstrip s); [|done].
  destruct (PyStr.is_space c) eqn:E; simpl; [tauto | congruence].
Qed.

Lemma strip_trimmed s : trimmed s (PyStr.strip s).
Proof.
  unfold PyStr.strip.
  destruct (lstrip_spec s) as (l & Hs & Hl).
  destruct (rstrip_spec (PyStr.lstrip s)) as (r & Hs' & Hr).
  exists l, r. split; [by rewrite <- Hs', <- Hs|].
  split; [done|]. split; [done|]. split.
  - apply rstrip_keeps_begin, lstrip_no_space.
  - apply rstrip_no_space.
Qed.

Lemma lstrip_all_space s : all_space s -> PyStr.lstrip s = "".
Proof.
  induction s as [|c s IH]; simpl; [done|]. intros [-> Hs]. by apply IH.
Qed.

Lemma rstrip_all_space s : all_space s -> PyStr.rstrip s = "".
Proof.
  induction s as [|c s IH]; simpl; [done|].
  intros [-> Hs]. by rewrite IH.
Qed.

Lemma lstrip_app_space l s :
  all_space l -> PyStr.lstrip (l +:+ s) = PyStr.lstrip s.
Proof.
  induction l as [|c l IH]; [done|].
  rewrite app_cons. simpl. intros [-> Hl]. by apply IH.
Qed.

Lemma lstrip_id s : ~ begins_with_space s -> PyStr.lstrip s = s.
Proof.
  destruct s as [|c s]; simpl; [done|].
  destruct (PyStr.is_space c); [tauto | done].
Qed.

Lemma rstrip_app_space k r :
  all_space r -> ~ ends_with_space k -> PyStr.rstrip (k +:+ r) = k.
Proof.
  intros Hr. induction k as [|c k IH]; intros Hk.
  - by apply rstrip_all_space.
  - rewrite app_cons. simpl. destruct k as [|d k].
    + rewrite app_empty_l, (rstrip_all_space r Hr).
      simpl in Hk. destruct (PyStr.is_space c); [tauto | done].
    + rewrite IH by exact Hk. done.
Qed.

(** Trimming has one result, the one [strip] computes. *)
Lemma trimmed_strip s k : trimmed s k -> k = PyStr.strip s.
Proof.
  intros (l & r & -> & Hl & Hr & Hb & He).
  unfold PyStr.strip. rewrite (lstrip_app_space l _ Hl).
  destruct k as [|c k].
  - rewrite app_empty_l, (lstrip_all_space r Hr). done.
  - rewrite lstrip_id.
    + by rewrite rstrip_app_space.
    + rewrite app_cons. exact Hb.
Qed.

Lemma app_inj_length s1 s2 r1 r2 :
  s1 +:+ r1 = s2 +:+ r2 -> String.length s1 = String.length s2 ->
  s1 = s2 /\ r1 = r2.
Proof.
  revert s2. induction s1 as [|c s1 IH]; intros [|d s2]; try done.
  rewrite !app_cons. simpl. intros [= -> H] [= Hlen].
  destruct (IH _ H Hlen) as [-> ->]. done.
Qed.

(** No delimiter starts after the one [rpartition] splits at. *)
Lemma rpartition_last sep s h t :
  sep <> "" -> PyStr.rpartition sep s = Some (h, t) ->
  PyStr.contains sep (PyStr.drop (S (String.length h)) s) = false.
Proof.
  intros Hsep. revert h t. induction s as [|c s IH]; intros h t; [done|].
  simpl. destruct (PyStr.rpartition sep s) as [[h' t']|] eqn:E.
  - intros [= <- <-]. simpl. by eapply IH.
  - destruct (PyStr.startswith sep (String c s)); [|done].
    intros [= <- <-]. simpl. destruct s; by apply rpartition_None.
Qed.

(** The split [rpartition] makes is the one at the last delimiter. *)
Lemma rpartition_last_split s h t :
  PyStr.rpartition SEP s = Some (h, t) -> last_split s h t.
Proof.
  intros E. split; [by apply rpartition_app|].
  revert h t E. induction s as [|c s IH]; intros h t; [done|].
  simpl. destruct (PyStr.rpartition SEP s) as [[h0 t0]|] eqn:E0.
  - intros [= <- <-] h' t' Hs. destruct h' as [|c' h']; simpl; [lia|].
    rewrite app_cons in Hs. injection Hs as _ Hs.
    specialize (IH _ _ eq_refl _ _ Hs). lia.
  - destruct (PyStr.startswith SEP (String c s)); [|done].
    intros [= <- <-] h' t' Hs. destruct h' as [|c' h']; simpl; [lia|].
    rewrite app_cons in Hs. injection Hs as _ Hs.
    apply rpartition_None in E0; [|done].
    assert (PyStr.contains SEP s = true); [|congruence].
    apply contains_spec. by exists h', t'.
Qed.

Lemma last_split_unique s h1 t1 h2 t2 :
  last_split s h1 t1 -> last_split s h2 t2 -> h1 = h2 /\ t1 = t2.
Proof.
  intros [H1 M1] [H2 M2].
  pose proof (M1 _ _ H2). pose proof (M2 _ _ H1).
  rewrite H1 in H2. apply app_inj_length in H2 as [-> H2]; [|lia].
  split; [done|]. by apply (inj (String.app SEP)) in H2.
Qed.

Lemma last_split_rpartition s h t :
  last_split s h t -> PyStr.rpartition SEP s = Some (h, t).
Proof.
  intros Hl. destruct (PyStr.rpartition SEP s) as [[h0 t0]|] eqn:E.
  - apply rpartition_last_split in E.
    by destruct (last_split_unique _ _ _ _ _ E Hl) as [-> ->].
  - apply rpartition_None in E; [|done]. destruct Hl as [Hs _].
    assert (PyStr.contains SEP s = true); [|congruence].
    apply contains_spec. by exists h, t.
Qed.

Lemma truthy_false s : PyStr.truthy s = false <-> s = "".
Proof. by destruct s. Qed.

Lemma truthy_true s : PyStr.truthy s = true <-> s <> "".
Proof. by destruct s. Qed.

End StringFacts.

(** ** Title normalizer *)

Section TitleLoop.

Implicit Types ttl cur src seg : string.

Lemma is_source_spec seg :
  is_source seg = true <->
  exists name, name ∈ ALLOWED_SOURCES /\ ci_equal seg name.
Proof.
  unfold is_source, ci_equal. rewrite existsb_exists.
  split; intros (name & Hin & H); exists name.
  - split; [by apply list_elem_of_In | by apply String.eqb_eq].
  - split; [by apply list_elem_of_In | by apply String.eqb_eq].
Qed.

(** What one pass does, by the last delimiter of the title. *)
Lemma strip_pass_cases ttl cur :
  match PyStr.rpartition SEP ttl with
  | None => strip_pass ttl cur = Leave
  | Some (h, t) =>
      strip_pass ttl cur =
        if is_source (PyStr.strip t)
           || (PyStr.truthy cur
               && String.eqb (PyStr.lower (PyStr.strip t)) (PyStr.lower cur))
        then Again (PyStr.strip h)
                   (if PyStr.truthy cur then cur else PyStr.strip t)
        else Leave
  end.
Proof.
  unfold strip_pass, PyStr.rsplit1.
  destruct (PyStr.rpartition SEP ttl) as [[h t]|] eqn:E.
  - destruct (PyStr.contains SEP ttl) eqn:C; [done|].
    apply rpartition_None in C; [congruence | done].
  - apply rpartition_None in E; [by rewrite E | done].
Qed.

Lemma strip_pass_no_fault ttl cur e : strip_pass ttl cur <> Fault e.
Proof.
  pose proof (strip_pass_cases ttl cur) as H.
  destruct (PyStr.rpartition SEP ttl) as [[h t]|]; rewrite H; [|done].
  by destruct (_ || _).
Qed.

(** Every pass that strips a segment shortens the title. *)
Lemma strip_pass_shorter ttl cur ttl' cur' :
  strip_pass ttl cur = Again ttl' cur' ->
  String.length ttl' < String.length ttl.
Proof.
  pose proof (strip_pass_cases ttl cur) as H.
  destruct (PyStr.rpartition SEP ttl) as [[h t]|] eqn:E; rewrite H; [|done].
  destruct (_ || _); [|done]. intros [= <-].
  apply rpartition_app in E. subst ttl.
  rewrite !str_length_app. pose proof (length_strip h). simpl. lia.
Qed.

(** The loop leaves within one pass per character of the title. *)
Lemma strip_loop_returns fuel ttl cur :
  String.length ttl < fuel ->
  exists r, strip_loop fuel ttl cur = Returns r.
Proof.
  revert ttl cur. induction fuel as [|fuel IH]; intros ttl cur Hlt; [lia|].
  simpl. destruct (strip_pass ttl cur) as [ttl' cur'| |e] eqn:E.
  - apply IH. apply strip_pass_shorter in E. lia.
  - by eexists.
  - by apply strip_pass_no_fault in E.
Qed.

(** More fuel than needed changes nothing. *)
Lemma strip_loop_fuel fuel fuel' ttl cur r :
  strip_loop fuel ttl cur = Returns r -> fuel <= fuel' ->
  strip_loop fuel' ttl cur = Returns r.
Proof.
  revert fuel' ttl cur. induction fuel as [|fuel IH]; intros fuel' ttl cur; [done|].
  destruct fuel' as [|fuel']; [lia|]. simpl.
  destruct (strip_pass ttl cur); try done.
  intros H ?. apply IH; [done | lia].
Qed.

Lemma pass_test_attribution src cur seg :
  carried src cur ->
  is_source seg
  || (PyStr.truthy cur && String.eqb (PyStr.lower seg) (PyStr.lower cur))
  = true <-> attribution src seg.
Proof.
  intros Hc. unfold attribution.
  rewrite orb_true_iff, andb_true_iff, is_source_spec, truthy_true, String.eqb_eq.
  destruct Hc as [->|[-> Hcur]]; [done|].
  split.
  - intros [H|[_ H]]; [by left|]. left.
    apply is_source_spec in Hcur as (name & ? & Hn).
    exists name. split; [done|]. unfold ci_equal in *. congruence.
  - intros [H|[? _]]; [by left | done].
Qed.

Lemma strip_loop_strips src fuel ttl cur :
  String.length ttl < fuel -> carried src cur ->
  exists r, strip_loop fuel ttl cur = Returns r /\ strips_to src (ttl, cur) r.
Proof.
  revert ttl cur. induction fuel as [|fuel IH]; intros ttl cur Hlt Hc; [lia|].
  simpl.
  pose proof (strip_pass_cases ttl cur) as Hp.
  pose proof (strip_pass_shorter ttl cur) as Hs.
  destruct (PyStr.rpartition SEP ttl) as [[h t]|] eqn:E; rewrite Hp in *; clear Hp.
  - pose proof (pass_test_attribution src cur (PyStr.strip t) Hc) as Ha.
    destruct (_ || _).
    + assert (attribution src (PyStr.strip t)) as Hat by by apply Ha.
      destruct (IH (PyStr.strip h)
                   (if PyStr.truthy cur then cur else PyStr.strip t))
        as (r & Hr & Hst).
      * specialize (Hs _ _ eq_refl). lia.
      * destruct cur as [|c cur]; simpl; [|done].
        destruct Hc as [<-|[-> _]]; right; (split; [done|]);
          apply is_source_spec; destruct Hat as [?|[? _]]; done.
      * exists r. split; [done|].
        eapply strips_segment;
          eauto using rpartition_last_split, strip_trimmed.
        by destruct cur.
    + eexists. split; [done|]. apply strips_stop.
      intros h' t' seg Hl%last_split_rpartition Hseg%trimmed_strip Hat.
      rewrite E in Hl. injection Hl as <- <-. subst seg.
      apply Ha in Hat. done.
  - eexists. split; [done|]. apply strips_stop.
    intros h' t' seg Hl%last_split_rpartition. congruence.
Qed.

(** A source that is not empty is carried through unchanged. *)
Lemma strip_loop_keeps_source fuel ttl cur ttl' cur' :
  cur <> "" -> strip_loop fuel ttl cur = Returns (ttl', cur') -> cur' = cur.
Proof.
  intros Hne. revert ttl. induction fuel as [|fuel IH]; intros ttl; [done|].
  simpl. pose proof (strip_pass_cases ttl cur) as Hp.
  destruct (PyStr.rpartition SEP ttl) as [[h t]|]; rewrite Hp.
  - destruct (_ || _); [|congruence].
    destruct cur; [done|]. apply IH.
  - congruence.
Qed.

Lemma strips_to_functional src st r1 r2 :
  strips_to src st r1 -> strips_to src st r2 -> r1 = r2.
Proof.
  intros H1. revert r2.
  induction H1 as [ttl cur Hno | ttl cur h t kept seg r Hl Hk Hs Hat _ IH];
    intros r2 H2.
  - inversion H2 as [|? ? h t kept seg ? Hl Hk Hs Hat]; subst; [done|].
    by destruct (Hno _ _ _ Hl Hs).
  - inversion H2 as [? ? Hno|? ? h' t' kept' seg' ? Hl' Hk' Hs' _ Hrest]; subst.
    + by destruct (Hno _ _ _ Hl Hs).
    + destruct (last_split_unique _ _ _ _ _ Hl Hl') as [<- <-].
      apply trimmed_strip in Hk, Hk', Hs, Hs'. subst.
      by apply IH.
Qed.

End TitleLoop.

(** C1 (amended). For every raw item, the title loop returns, and its result
    is the one and only result the specification's strip reaches: while the
    last " - "-separated segment of the title, with the white space around it
    trimmed, case-insensitively equals an allow-listed publisher name or the
    item's non-empty source field, that segment and its delimiter are taken
    off, the kept title is trimmed, and an empty source adopts the trimmed
    segment; the loop stops at the first segment that is not such an
    attribution. So nothing is removed but such attributions, their
    delimiters and white space. "Market Rallies - CHOSUNBIZ - Chosunbiz"
    normalizes to "Market Rallies" whatever the other fields are. *)
Theorem normalize_title_strips_attributions :
  (forall it : item,
      exists r, normalize_title it = Returns r
                /\ strips_to (source it) (title it, source it) r
                /\ forall r', strips_to (source it) (title it, source it) r'
                              -> r' = r)
  /\ (forall lnk date src, exists src',
         normalize_title {| title := "Market Rallies - CHOSUNBIZ - Chosunbiz";
                            link := lnk; pubDate := date; source := src |}
         = Returns ("Market Rallies", src')).
Proof.
  split.
  - intros it. unfold normalize_title.
    destruct (strip_loop_strips (source it) (S (String.length (title it)))
                (title it) (source it)) as (r & Hr & Hst); [lia | by left |].
    exists r. repeat split; [done..|].
    intros r' Hr'. by eapply strips_to_functional.
  - intros lnk date [|c src]; eexists; vm_compute; reflexivity.
Qed.

(** C1 as stated fails: the last segment of "Rates Rise -  Reuters" is
    " Reuters" (the second blank belongs to it), which equals no allow-listed
    name and not the empty source field, yet the segment is stripped and
    "Reuters" is adopted as the source. *)
Lemma untrimmed_segment_is_stripped :
  let it := {| title := "Rates Rise -  Reuters"; link := "https://example.org/a";
               pubDate := "2026-02-27 10:30:00"; source := "" |} in
  last_split (title it) "Rates Rise" " Reuters"
  /\ ~ attribution (source it) " Reuters"
  /\ normalize_title it = Returns ("Rates Rise", "Reuters").
Proof.
  simpl. split; [by apply rpartition_last_split; vm_compute|].
  split; [|by vm_compute].
  intros H. apply (pass_test_attribution "" "" " Reuters") in H; [|by left].
  vm_compute in H. discriminate.
Qed.

(** C5. The strip loop of [normalize_item] terminates on every title: it
    returns within one pass per character, and every larger fuel gives the
    same result; a title without the delimiter " - " is returned unchanged
    (and so is the source). *)
Theorem normalize_title_terminates (it : item) :
  (exists r, normalize_title it = Returns r
             /\ forall fuel, String.length (title it) < fuel ->
                  strip_loop fuel (title it) (source it) = Returns r)
  /\ (~ is_substring SEP (title it) ->
      normalize_title it = Returns (title it, source it)).
Proof.
  unfold normalize_title. split.
  - destruct (strip_loop_returns (S (String.length (title it))) (title it)
                (source it)) as [r Hr]; [lia|].
    exists r. split; [done|]. intros fuel Hf.
    eapply strip_loop_fuel; [done | lia].
  - intros Hno. simpl.
    pose proof (strip_pass_cases (title it) (source it)) as Hp.
    destruct (PyStr.rpartition SEP (title it)) as [[h t]|] eqn:E.
    + destruct Hno. apply rpartition_app in E. by exists h, t.
    + by rewrite Hp.
Qed.

(** C5 at a title without a delimiter. *)
Lemma normalize_title_terminates_witness :
  normalize_title {| title := "Talks Continue"; link := "https://example.org/b";
                     pubDate := ""; source := "" |}
  = Returns ("Talks Continue", "").
Proof.
  apply (proj2 (normalize_title_terminates
                  {| title := "Talks Continue"; link := "https://example.org/b";
                     pubDate := ""; source := "" |})).
  simpl. intros H. apply contains_spec in H. vm_compute in H. discriminate.
Defined.

(** ** Date normalizer *)

Section DateFacts.

Variable e : env.

(** [strptime] returns or raises [ValueError], nothing else. *)
Lemma strptime_outcome data fmt :
  strptime e data fmt = Raises ValueError
  \/ exists dt, strptime e data fmt = Returns dt.
Proof.
  unfold strptime. repeat case_match; eauto.
Qed.

Lemma try_formats_returns data fmts :
  exists o, try_formats e data fmts = Returns o.
Proof.
  induction fmts as [|fmt fmts IH]; simpl; [by eexists|].
  destruct (strptime_outcome data fmt) as [-> | [dt ->]]; [done | by eexists].
Qed.

Lemma try_formats_none data fmts :
  (forall f, f ∈ fmts -> strptime e data f = Raises ValueError) ->
  try_formats e data fmts = Returns None.
Proof.
  induction fmts as [|fmt fmts IH]; intros H; simpl; [done|].
  rewrite H by left. apply IH. intros f Hf. apply H. by right.
Qed.

Lemma try_formats_first data pre fmt post dt :
  (forall f, f ∈ pre -> strptime e data f = Raises ValueError) ->
  strptime e data fmt = Returns dt ->
  try_formats e data (pre ++ fmt :: post) = Returns (Some dt).
Proof.
  intros Hpre Hfmt. induction pre as [|f pre IH]; simpl.
  - by rewrite Hfmt.
  - rewrite Hpre by left. apply IH. intros g Hg. apply Hpre. by right.
Qed.

(** The loop ends in one of two ways: every format failed, or the first
    format that parses gave the value. *)
Lemma try_formats_spec data fmts :
  (try_formats e data fmts = Returns None
   /\ forall f, f ∈ fmts -> strptime e data f = Raises ValueError)
  \/ (exists pre fmt post dt,
         fmts = pre ++ fmt :: post
         /\ (forall f, f ∈ pre -> strptime e data f = Raises ValueError)
         /\ strptime e data fmt = Returns dt
         /\ try_formats e data fmts = Returns (Some dt)).
Proof.
  induction fmts as [|fmt fmts IH]; simpl.
  - left. split; [done|]. intros f Hf. by apply elem_of_nil in Hf.
  - destruct (strptime_outcome data fmt) as [Hfail | [dt Hdt]].
    + rewrite Hfail.
      destruct IH as [[Hnone Hall] | (pre & f0 & post & dt & -> & Hpre & Hf0 & Hres)].
      * left. split; [done|].
        intros f [->|Hf]%elem_of_cons; [done | by apply Hall].
      * right. exists (fmt :: pre), f0, post, dt.
        split; [done|]. split; [|done].
        intros f [->|Hf]%elem_of_cons; [done | by apply Hpre].
    + rewrite Hdt. right. exists [], fmt, fmts, dt.
      split; [done|]. split; [|done].
      intros f Hf. by apply elem_of_nil in Hf.
Qed.

Lemma normalize_date_returns raw : exists s, normalize_date e raw = Returns s.
Proof.
  unfold normalize_date, parse_date.
  destruct (try_formats_returns raw formats) as [[dt|] ->]; by eexists.
Qed.

(** *** Matching one token at a time *)

Lemma match_toks_head t ts s r rs caps fin :
  Re.run (tok_re e t) s = r :: rs ->
  match_toks e ts r = Some (caps, fin) ->
  match_toks e (t :: ts) s
  = Some (match t with TDir d => (d, consumed s r) :: caps | _ => caps end,
          fin).
Proof. intros Hrun Hrest. simpl. rewrite Hrun. simpl. by rewrite Hrest. Qed.

Lemma run_alts_words ws s :
  Re.run (Re.alts (Re.word <$> ws)) s
  = flat_map (fun w => Re.run (Re.word w) s) ws.
Proof.
  induction ws as [|w ws IH]; [done|].
  change (Re.run (Re.alts (Re.word <$> w :: ws)) s)
    with (Re.run (Re.word w) s ++ Re.run (Re.alts (Re.word <$> ws)) s).
  by rewrite IH.
Qed.

(** A word matches in at most one way, and consumes its own length. *)
Lemma run_word w s :
  Re.run (Re.word w) s = []
  \/ (Re.run (Re.word w) s = [PyStr.drop (String.length w) s]
      /\ String.length w <= String.length s).
Proof.
  revert s. induction w as [|c w IH]; intros s; simpl.
  - right. split; [by destruct s | lia].
  - destruct s as [|x s]; simpl; [by left|].
    destruct (Ascii.eqb _ _); simpl; [|by left].
    rewrite app_nil_r. destruct (IH s) as [->|[-> ?]]; [by left|].
    right. split; [done | lia].
Qed.

Lemma insert_by_len_cons w x l :
  Re.insert_by_len w (x :: l)
  = if String.length x <=? String.length w then w :: x :: l
    else x :: Re.insert_by_len w l.
Proof. reflexivity. Qed.

Lemma insert_gmt l : gmt_after_long (Re.insert_by_len "gmt" l).
Proof.
  induction l as [|x l (pre & post & IH & Hpre)].
  - by exists [], [].
  - rewrite insert_by_len_cons.
    destruct (String.length x <=? String.length "gmt") eqn:E.
    + by exists [], (x :: l).
    + apply Nat.leb_gt in E. simpl in E. exists (x :: pre), post. rewrite IH.
      split; [done|]. constructor; [lia | done].
Qed.

Lemma insert_keeps_gmt w l :
  gmt_after_long l -> gmt_after_long (Re.insert_by_len w l).
Proof.
  intros (pre & post & -> & Hpre).
  induction Hpre as [|x pre Hx Hpre IH].
  - rewrite app_nil_l, insert_by_len_cons.
    destruct (String.length "gmt" <=? String.length w) eqn:E.
    + apply Nat.leb_le in E. simpl in E. exists [w], post.
      split; [done|]. by repeat constructor.
    + by exists [], (Re.insert_by_len w post).
  - rewrite <- app_comm_cons, insert_by_len_cons.
    destruct (String.length x <=? String.length w) eqn:E.
    + apply Nat.leb_le in E. exists (w :: x :: pre), post.
      split; [done|]. repeat constructor; [lia | done | done].
    + destruct IH as (pre' & post' & -> & Hpre').
      exists (x :: pre'), post'. split; [done|]. by constructor.
Qed.

Lemma long_words_leave_nothing pre (l : list string) :
  Forall (fun w => 3 <= String.length w) pre ->
  exists rs,
    flat_map (fun w => Re.run (Re.word w) "GMT") pre ++ "" :: l = "" :: rs.
Proof.
  induction 1 as [|w pre Hw _ IH]; [by eexists|].
  change (flat_map (fun w => Re.run (Re.word w) "GMT") (w :: pre))
    with (Re.run (Re.word w) "GMT"
          ++ flat_map (fun w => Re.run (Re.word w) "GMT") pre).
  destruct (run_word w "GMT") as [->|[-> Hlen]]; [done|].
  simpl in Hlen. assert (String.length w = 3) as -> by lia.
  by eexists.
Qed.

(** Whatever the local zone names are, [%Z] consumes all of "GMT" in its
    first match. *)
Lemma run_zone_gmt : exists rs, Re.run (directive_re e D_Z) "GMT" = "" :: rs.
Proof.
  assert (gmt_after_long (Re.by_len_desc (timezone_names e)))
    as (pre & post & Hl & Hpre).
  { unfold timezone_names, Re.by_len_desc. simpl.
    apply insert_keeps_gmt, insert_gmt. }
  change (directive_re e D_Z) with (Re.seqToRE (timezone_names e)).
  unfold Re.seqToRE.
  replace (forallb _ (timezone_names e)) with false by done.
  rewrite run_alts_words, Hl, flat_map_app.
  change (flat_map (fun w => Re.run (Re.word w) "GMT") ("gmt" :: post))
    with ("" :: flat_map (fun w => Re.run (Re.word w) "GMT") post).
  by apply long_words_leave_nothing.
Qed.

Lemma strptime_rfc822_gmt :
  strptime e "Thu, 27 Feb 2026 10:30:00 GMT" "%a, %d %b %Y %H:%M:%S %Z"
  = Returns {| year := 2026; month := 2; day := 27; hour := 10;
               minute := 30; second := 0; utcoffset := None |}.
Proof.
  destruct run_zone_gmt as [rs Hz].
  pose (toks := [TDir D_a; TChr ","; TSpaces; TDir D_d; TSpaces; TDir D_b;
                 TSpaces; TDir D_Y; TSpaces; TDir D_H; TChr ":"; TDir D_M;
                 TChr ":"; TDir D_S; TSpaces; TDir D_Z]%char).
  assert (exists caps,
             match_toks e toks "Thu, 27 Feb 2026 10:30:00 GMT"
             = Some (caps, "")
             /\ set_fields epoch_fields caps
                = Some {| year := 2026; month := 2; day := 27; hour := 10;
                          minute := 30; second := 0; utcoffset := None |})
    as (caps & Hm & Hf).
  { eexists. split.
    - unfold toks.
      do 15 (eapply match_toks_head; [lazy; reflexivity|]).
      eapply match_toks_head; [exact Hz | reflexivity].
    - vm_compute. reflexivity. }
  unfold strptime.
  change (compile_format false "%a, %d %b %Y %H:%M:%S %Z") with (Some toks).
  cbv beta iota. rewrite Hm. cbv beta iota.
  change (PyStr.truthy "") with false. cbv beta iota. rewrite Hf.
  reflexivity.
Qed.

End DateFacts.

(** C6. The date normalizer never raises: on every string it returns, and
    in one of two ways. Either every format of the fixed sequence fails and
    the raw string comes back unchanged, or the result is the rendering of
    the value parsed by the first format, in order, that parses. On
    "not a date" every format fails, in every environment. *)
Theorem normalize_date_never_raises (e : env) (raw : string) :
  ((normalize_date e raw = Returns raw
    /\ forall f, f ∈ formats -> strptime e raw f = Raises ValueError)
   \/ (exists pre fmt post dt,
          formats = pre ++ fmt :: post
          /\ (forall f, f ∈ pre -> strptime e raw f = Raises ValueError)
          /\ strptime e raw fmt = Returns dt
          /\ normalize_date e raw = Returns (isoformat dt)))
  /\ (forall pre fmt post dt,
         formats = pre ++ fmt :: post ->
         (forall f, f ∈ pre -> strptime e raw f = Raises ValueError) ->
         strptime e raw fmt = Returns dt ->
         normalize_date e raw = Returns (isoformat dt))
  /\ ((forall f, f ∈ formats -> strptime e raw f = Raises ValueError) ->
      normalize_date e raw = Returns raw)
  /\ normalize_date e "not a date" = Returns "not a date".
Proof.
  split; [|split; [|split]].
  - unfold normalize_date, parse_date.
    destruct (try_formats_spec e raw formats)
      as [[-> Hall] | (pre & fmt & post & dt & Hfs & Hpre & Hfmt & ->)].
    + by left.
    + right. by exists pre, fmt, post, dt.
  - intros pre fmt post dt Hfs Hpre Hfmt.
    unfold normalize_date, parse_date. rewrite Hfs.
    by rewrite (try_formats_first e raw pre fmt post dt).
  - intros Hall. unfold normalize_date, parse_date.
    by rewrite try_formats_none.
  - unfold normalize_date, parse_date. rewrite try_formats_none; [done|].
    intros f Hf. unfold formats in Hf.
    repeat (apply elem_of_cons in Hf as [->|Hf]; [by vm_compute|]).
    by apply elem_of_nil in Hf.
Qed.

(** C6 at a string that no format parses (30 February), and at one that
    only the last format parses. *)
Lemma normalize_date_never_raises_witness :
  normalize_date utc_env "2026-02-30 10:30:00" = Returns "2026-02-30 10:30:00"
  /\ normalize_date utc_env "2026-02-27 10:30:00"
     = Returns "2026-02-27T10:30:00".
Proof.
  split.
  - apply (proj1 (proj2 (proj2
             (normalize_date_never_raises utc_env "2026-02-30 10:30:00")))).
    intros f Hf. unfold formats in Hf.
    repeat (apply elem_of_cons in Hf as [->|Hf]; [vm_compute; reflexivity|]).
    by apply elem_of_nil in Hf.
  - apply (proj1 (proj2
             (normalize_date_never_raises utc_env "2026-02-27 10:30:00"))
             ["%a, %d %b %Y %H:%M:%S %Z"; "%a, %d %b %Y %H:%M:%S %z";
              "%Y-%m-%dT%H:%M:%S%z"; "%Y-%m-%dT%H:%M:%SZ"]
             "%Y-%m-%d %H:%M:%S" []
             {| year := 2026; month := 2; day := 27; hour := 10;
                minute := 30; second := 0; utcoffset := None |}).
    + reflexivity.
    + intros f Hf.
      repeat (apply elem_of_cons in Hf as [->|Hf]; [vm_compute; reflexivity|]).
      by apply elem_of_nil in Hf.
    + vm_compute. reflexivity.
Defined.

(** C7 (amended). "Thu, 27 Feb 2026 10:30:00 GMT" parses, under the first
    format and in every environment; the result is not the raw string but
    "2026-02-27T10:30:00", a well-formed ISO-8601 date and time whose fields
    are the date and the time of day written in the input. The parsed value
    carries no UTC offset and the result has no zone designator: the zone
    of the input is not kept. *)
Theorem normalize_date_rfc822_example (e : env) :
  let raw := "Thu, 27 Feb 2026 10:30:00 GMT" in
  let fields := {| year := 2026; month := 2; day := 27; hour := 10;
                   minute := 30; second := 0; utcoffset := None |} in
  parse_date e raw = Returns (Some fields)
  /\ normalize_date e raw = Returns "2026-02-27T10:30:00"
  /\ "2026-02-27T10:30:00" <> raw
  /\ read_iso8601 "2026-02-27T10:30:00" = Some fields.
Proof.
  assert (parse_date e "Thu, 27 Feb 2026 10:30:00 GMT"
          = Returns (Some {| year := 2026; month := 2; day := 27; hour := 10;
                             minute := 30; second := 0; utcoffset := None |}))
    as Hp.
  { unfold parse_date, formats. simpl. by rewrite strptime_rfc822_gmt. }
  simpl. split; [done|]. split; [|split; [done | by vm_compute]].
  unfold normalize_date. by rewrite Hp.
Qed.

(** C7 as stated fails: the result for the GMT string has no zone
    designator, so it denotes a date and a time of day but no instant. In a
    process whose zone is EST the same text comes out for
    "Thu, 27 Feb 2026 10:30:00 EST", which is five hours later. Only an
    input with a numeric offset keeps its zone, and then the instant
    2026-02-27T10:30:00Z can be read back. *)
Lemma rfc822_zone_is_dropped :
  normalize_date est_env "Thu, 27 Feb 2026 10:30:00 GMT"
  = Returns "2026-02-27T10:30:00"
  /\ read_iso8601 "2026-02-27T10:30:00" ≫= instant_of = None
  /\ normalize_date est_env "Thu, 27 Feb 2026 10:30:00 EST"
     = Returns "2026-02-27T10:30:00"
  /\ normalize_date est_env "Thu, 27 Feb 2026 10:30:00 +0000"
     = Returns "2026-02-27T10:30:00+00:00"
  /\ read_iso8601 "2026-02-27T10:30:00+00:00" ≫= instant_of
     = Some 1772188200000000%Z.
Proof.
  split; [by vm_compute|]. split; [by vm_compute|].
  split; [by vm_compute|]. split; by vm_compute.
Qed.

(** C10. [normalize_item] returns on every raw item, with the link of the
    input unchanged, and with the source of the input unchanged whenever
    that source is not empty. *)
Theorem normalize_item_keeps_link_and_source (e : env) (it : item) :
  exists it', normalize_item e it = Returns it'
              /\ link it' = link it
              /\ (source it <> "" -> source it' = source it).
Proof.
  unfold normalize_item.
  destruct (normalize_date_returns e (pubDate it)) as [iso ->].
  destruct (strip_loop_returns (S (String.length (title it))) (title it)
              (source it)) as [[ttl' cur'] Hr]; [lia|].
  unfold normalize_title. rewrite Hr.
  eexists. split; [done|]. split; [done|]. simpl. intros Hne.
  by eapply strip_loop_keeps_source.
Qed.

(** C10 at an item with a source of its own. *)
Lemma normalize_item_keeps_link_and_source_witness :
  exists it',
    normalize_item utc_env
      {| title := "Orders Rise - Bloomberg"; link := "https://example.org/c";
         pubDate := "2026-02-27 10:30:00"; source := "Bloomberg.com" |}
    = Returns it'
    /\ link it' = "https://example.org/c" /\ source it' = "Bloomberg.com".
Proof.
  destruct (normalize_item_keeps_link_and_source utc_env
              {| title := "Orders Rise - Bloomberg";
                 link := "https://example.org/c";
                 pubDate := "2026-02-27 10:30:00";
                 source := "Bloomberg.com" |}) as (it' & Hr & Hl & Hs).
  exists it'. split; [exact Hr|]. split; [exact Hl|].
  apply Hs. simpl. discriminate.
Defined.

(** ** Source filter *)

Lemma no_name_in_empty :
  existsb (fun src => PyStr.contains (PyStr.lower src) "") ALLOWED_SOURCES
  = false.
Proof. reflexivity. Qed.

(** C8. [is_from_allowed_source] is true exactly when some allow-listed name
    occurs, case-insensitively, in the title or in the source of the item; an
    item with an empty source is accepted exactly when its title matches. The
    function is a pure boolean function of the item. *)
Theorem is_from_allowed_source_iff (it : item) :
  (is_from_allowed_source it = true <->
   exists name, name ∈ ALLOWED_SOURCES
     /\ (is_substring (PyStr.lower name) (PyStr.lower (title it))
         \/ is_substring (PyStr.lower name) (PyStr.lower (source it))))
  /\ (source it = "" ->
      (is_from_allowed_source it = true <->
       exists name, name ∈ ALLOWED_SOURCES
         /\ is_substring (PyStr.lower name) (PyStr.lower (title it)))).
Proof.
  assert (is_from_allowed_source it = true <->
          exists name, name ∈ ALLOWED_SOURCES
            /\ (is_substring (PyStr.lower name) (PyStr.lower (title it))
                \/ is_substring (PyStr.lower name) (PyStr.lower (source it))))
    as Hiff.
  { unfold is_from_allowed_source, is_substring. rewrite existsb_exists.
    split; intros (name & Hin & H); exists name.
    - apply list_elem_of_In in Hin. split; [done|].
      apply orb_true_iff in H. by rewrite <- !contains_spec.
    - apply list_elem_of_In in Hin. split; [done|].
      apply orb_true_iff. by rewrite !contains_spec. }
  split; [exact Hiff|].
  intros Hsrc. rewrite Hiff, Hsrc. simpl.
  split; intros (name & Hin & H); exists name; (split; [done|]); [|by left].
  destruct H as [H|H]; [done|].
  apply contains_spec in H.
  pose proof no_name_in_empty as Hno.
  assert (existsb (fun src => PyStr.contains (PyStr.lower src) "")
                  ALLOWED_SOURCES = true); [|congruence].
  apply existsb_exists. exists name. split; [by apply list_elem_of_In | done].
Qed.

(** C8 at an item with an empty source and a matching title. *)
Lemma is_from_allowed_source_iff_witness :
  is_from_allowed_source
    {| title := "Acme Corp Wins Award - Reuters";
       link := "https://example.org/d"; pubDate := ""; source := "" |}
  = true.
Proof.
  apply (proj2 (is_from_allowed_source_iff
                  {| title := "Acme Corp Wins Award - Reuters";
                     link := "https://example.org/d"; pubDate := "";
                     source := "" |}) eq_refl).
  exists "Reuters". split.
  - apply list_elem_of_In. simpl. tauto.
  - exists "acme corp wins award - ", "". reflexivity.
Defined.

(** ** Archive merger *)

Section Merge.

Implicit Types (E B : list item) (seen : gset string) (n : nat).

Lemma links_app E B : links (E ++ B) = links E ∪ links B.
Proof. unfold links. by rewrite fmap_app, list_to_set_app_L. Qed.

Lemma links_cons it B : links (it :: B) = {[ link it ]} ∪ links B.
Proof. done. Qed.

Lemma elem_of_links x E : x ∈ links E <-> x ∈ link <$> E.
Proof. unfold links. by rewrite elem_of_list_to_set. Qed.

(** The loop keeps [seen_links] equal to the links of the list it builds;
    the list grows by the count, and gains exactly the links of the batch. *)
Lemma links_nil : links [] = ∅.
Proof. done. Qed.

Lemma merge_loop_spec B E n :
  exists E' n',
    foldl merge_step (E, links E, n) B = (E', links E', n')
    /\ length E' = length E + (n' - n) /\ n <= n'
    /\ links E' = links E ∪ links B
    /\ (NoDup (link <$> E) -> NoDup (link <$> E')).
Proof.
  revert E n. induction B as [|it B IH]; intros E n.
  - exists E, n. simpl. split; [done|]. split; [lia|]. split; [lia|].
    split; [|done]. by rewrite links_nil, (right_id_L ∅ (∪)).
  - simpl. destruct (decide (link it ∈ links E)) as [Hin|Hout].
    + destruct (IH E n) as (E' & n' & Hf & Hlen & Hle & Hl & Hnd).
      exists E', n'. rewrite links_cons.
      split; [done|]. split; [done|]. split; [done|]. split; [|done].
      rewrite Hl, (assoc_L (∪)). f_equal. symmetry.
      rewrite (comm_L (∪)).
      apply subseteq_union_1_L. by apply singleton_subseteq_l.
    + replace (links E ∪ {[ link it ]}) with (links (E ++ [it])).
      2:{ by rewrite links_app, links_cons, links_nil, (right_id_L ∅ (∪)). }
      destruct (IH (E ++ [it]) (S n)) as (E' & n' & Hf & Hlen & Hle & Hl & Hnd).
      exists E', n'. rewrite List.length_app in Hlen. simpl in Hlen.
      split; [done|]. split; [lia|]. split; [lia|]. split.
      * by rewrite Hl, links_app, !links_cons, links_nil,
          (right_id_L ∅ (∪)), (assoc_L (∪)).
      * intros HE. apply Hnd. rewrite fmap_app. apply NoDup_app.
        split; [done|]. split; [|apply NoDup_singleton].
        intros x Hx [->|[]%elem_of_nil]%elem_of_cons.
        by apply Hout, elem_of_links.
Qed.

(** A batch whose links are all seen leaves the state as it is. *)
Lemma merge_loop_all_seen B E seen n :
  (forall it, it ∈ B -> link it ∈ seen) ->
  foldl merge_step (E, seen, n) B = (E, seen, n).
Proof.
  induction B as [|it B IH]; intros H; simpl; [done|].
  rewrite decide_True by (apply H; left).
  apply IH. intros it' Hit'. apply H. by right.
Qed.

Lemma ltb_true_le s t : String.ltb s t = true -> (s ≤ t)%string.
Proof.
  unfold String.ltb, String.le, String.leb.
  destruct (String.compare s t); done.
Qed.

Lemma ltb_false_ge s t : String.ltb s t = false -> (t ≤ s)%string.
Proof.
  unfold String.ltb, String.le, String.leb.
  rewrite (String.compare_antisym t s).
  destruct (String.compare s t); done.
Qed.

Lemma insert_desc_perm x l : insert_desc x l ≡ₚ x :: l.
Proof.
  induction l as [|y l IH]; simpl; [done|].
  destruct (String.ltb _ _); [|done].
  rewrite IH. apply Permutation_swap.
Qed.

Lemma sort_perm l : sort_by_pubDate_desc l ≡ₚ l.
Proof.
  induction l as [|x l IH]; simpl; [done|].
  by rewrite insert_desc_perm, IH.
Qed.

Lemma insert_desc_sorted x l :
  Sorted not_older l -> Sorted not_older (insert_desc x l).
Proof.
  induction 1 as [|y l Hl IH Hhd]; simpl.
  - by repeat constructor.
  - destruct (String.ltb (pubDate x) (pubDate y)) eqn:E.
    + constructor; [done|].
      destruct Hhd as [|z l Hz]; simpl.
      * constructor. by apply ltb_true_le.
      * destruct (String.ltb (pubDate x) (pubDate z));
          constructor; [done | by apply ltb_true_le].
    + constructor; [by constructor|].
      constructor. by apply ltb_false_ge.
Qed.

Lemma sort_sorted l : Sorted not_older (sort_by_pubDate_desc l).
Proof.
  induction l as [|x l IH]; simpl; [constructor | by apply insert_desc_sorted].
Qed.

Lemma Sorted_adjacent (l : list item) i a b :
  Sorted not_older l -> l !! i = Some a -> l !! S i = Some b -> not_older a b.
Proof.
  intros Hs. revert i. induction Hs as [|x l Hs IH Hhd]; intros i; [done|].
  destruct i as [|i]; simpl.
  - intros [= ->] Hb. destruct Hhd as [|y l Hy]; [done|].
    by injection Hb as ->.
  - apply IH.
Qed.

(** The sort is stable: the items of any one pubDate keep their order. *)
Lemma insert_desc_stable k x l :
  filter (fun a => pubDate a = k) (insert_desc x l)
  = filter (fun a => pubDate a = k) (x :: l).
Proof.
  induction l as [|y l IH]; simpl; [done|].
  destruct (String.ltb (pubDate x) (pubDate y)) eqn:E; [|done].
  rewrite filter_cons, IH, !filter_cons.
  destruct (decide (pubDate y = k)) as [Hy|]; [|done].
  destruct (decide (pubDate x = k)) as [Hx|]; [|done].
  rewrite Hx, Hy in E. unfold String.ltb in E.
  pose proof (String.compare_antisym k k) as Hk.
  destruct (String.compare k k); done.
Qed.

Lemma sort_stable k l :
  filter (fun a => pubDate a = k) (sort_by_pubDate_desc l)
  = filter (fun a => pubDate a = k) l.
Proof.
  induction l as [|x l IH]; simpl; [done|].
  by rewrite insert_desc_stable, !filter_cons, IH.
Qed.

Lemma links_perm l l' : l ≡ₚ l' -> links l = links l'.
Proof. intros H. unfold links. by rewrite H. Qed.

End Merge.

(** C2. Merging is idempotent: merging the batch [B] again into the result
    of merging it into [E] adds no item. *)
Theorem merge_items_idempotent (E B : list item) :
  (merge_items (merge_items E B).1 B).2 = 0.
Proof.
  unfold merge_items at 2.
  destruct (merge_loop_spec B E 0) as (E' & n' & Hf & _ & _ & Hl & _).
  fold (links E). rewrite Hf. simpl.
  unfold merge_items. fold (links (sort_by_pubDate_desc E')).
  rewrite merge_loop_all_seen; [done|].
  intros it Hit. rewrite (links_perm _ _ (sort_perm E')), Hl.
  apply elem_of_union_r, elem_of_links, list_elem_of_fmap. by exists it.
Qed.

(** C3. The merged list is as long as the existing list plus the returned
    count, and the set of its links is the union of the links of the
    existing list and of the batch. *)
Theorem merge_items_length_and_links (E B : list item) :
  length (merge_items E B).1 = length E + (merge_items E B).2
  /\ links (merge_items E B).1 = links E ∪ links B.
Proof.
  unfold merge_items.
  destruct (merge_loop_spec B E 0) as (E' & n' & Hf & Hlen & _ & Hl & _).
  fold (links E). rewrite Hf. simpl. split.
  - rewrite (Permutation_length (sort_perm E')). lia.
  - by rewrite (links_perm _ _ (sort_perm E')).
Qed.

(** C4. After a merge no two items of the list share a link, given that
    none did in the existing list, and every item is followed by one whose
    pubDate is not greater in the order of strings. *)
Theorem merge_items_invariants (E B : list item) :
  (NoDup (link <$> E) -> NoDup (link <$> (merge_items E B).1))
  /\ (forall i a b,
         (merge_items E B).1 !! i = Some a ->
         (merge_items E B).1 !! S i = Some b ->
         (pubDate b ≤ pubDate a)%string).
Proof.
  unfold merge_items.
  destruct (merge_loop_spec B E 0) as (E' & n' & Hf & _ & _ & _ & Hnd).
  fold (links E). rewrite Hf. simpl. split.
  - intros HE. rewrite (sort_perm E'). by apply Hnd.
  - intros i a b Ha Hb.
    by apply (Sorted_adjacent _ i a b (sort_sorted E')).
Qed.


(** ** The run *)

Section Run.

Variable e : env.
Variable fetch : string -> fetched.

Implicit Types (cos : gmap string (list item)) (co : company).

Lemma normalize_item_link it :
  exists it', normalize_item e it = Returns it' /\ link it' = link it.
Proof.
  unfold normalize_item, normalize_title.
  destruct (normalize_date_returns e (pubDate it)) as [iso ->].
  destruct (strip_loop_returns (S (String.length (title it))) (title it)
              (source it)) as [[ttl' cur'] ->]; [lia|].
  by eexists.
Qed.

(** Normalizing a list never raises, and keeps the links in order. *)
Lemma mapM_normalize l :
  exists l', mapM (normalize_item e) l = Returns l'
             /\ link <$> l' = link <$> l.
Proof.
  induction l as [|it l (l' & Hl' & Hlinks)]; simpl; [by eexists|].
  destruct (normalize_item_link it) as (it' & -> & Hit').
  rewrite Hl'. eexists. split; [done|].
  rewrite !fmap_cons. by rewrite Hit', Hlinks.
Qed.

(** One turn of the loop returns; it touches the entry of its own company
    only, and leaves there what [entry_after] says. *)
Lemma process_company_spec cos n co :
  exists cos' n',
    process_company e fetch (cos, n) co = Returns (cos', n')
    /\ (forall k, k <> co_name co -> cos' !! k = cos !! k)
    /\ cos' !! co_name co = entry_after e fetch (cos !! co_name co) co.
Proof.
  unfold process_company, try_company, entry_after.
  destruct (fetch (co_query co)) as [raw|ex]; [|by exists cos, n].
  destruct (mapM_normalize
              (take MAX_ITEMS_PER_FETCH
                    (List.filter is_from_allowed_source raw)))
    as (l' & -> & _).
  destruct (merge_items (default [] (cos !! co_name co)) l')
    as [merged added] eqn:Em.
  eexists _, _. split; [done|]. split.
  - intros k Hk. by rewrite lookup_insert_ne.
  - by rewrite lookup_insert_eq.
Qed.

Lemma process_companies_spec cs : forall cos n,
  NoDup (co_name <$> cs) ->
  exists cos' n',
    process_companies e fetch (cos, n) cs = Returns (cos', n')
    /\ (forall k, k ∉ co_name <$> cs -> cos' !! k = cos !! k)
    /\ (forall co, co ∈ cs ->
          cos' !! co_name co = entry_after e fetch (cos !! co_name co) co).
Proof.
  induction cs as [|c cs IH]; intros cos n Hnd.
  - exists cos, n. split; [done|]. split; [done|].
    intros co Hco. by apply elem_of_nil in Hco.
  - rewrite fmap_cons in Hnd. apply NoDup_cons in Hnd as [Hc Hnd].
    destruct (process_company_spec cos n c) as (cos1 & n1 & H1 & Hframe & Hown).
    destruct (IH cos1 n1 Hnd) as (cos' & n' & H' & Hframe' & Hown').
    exists cos', n'. simpl. rewrite H1. split; [done|]. split.
    + intros k Hk.
      apply not_elem_of_cons in Hk as [Hkc Hk].
      by rewrite Hframe', Hframe.
    + intros co [->|Hco]%elem_of_cons.
      * by rewrite Hframe', Hown.
      * rewrite Hown' by done. rewrite Hframe; [done|].
        intros Heq. apply Hc. rewrite <- Heq.
        apply list_elem_of_fmap. by exists co.
Qed.

Lemma COMPANIES_names_distinct : NoDup (co_name <$> COMPANIES).
Proof. apply (bool_decide_unpack _). by vm_compute. Qed.

(** [main] returns with exit status 0, whatever the fetches do, and the
    saved list of every configured company is [entry_after] of its old. *)
Lemma main_spec now d :
  exists r,
    main e fetch now d = Returns r /\ exit_status r = 0%Z
    /\ forall co, co ∈ COMPANIES ->
         companies (saved r) !! co_name co
         = entry_after e fetch (companies d !! co_name co) co.
Proof.
  unfold main.
  destruct (process_companies_spec COMPANIES (companies d) 0
              COMPANIES_names_distinct) as (cos' & n' & -> & _ & Hown).
  eexists. split; [done|]. split; [done|]. exact Hown.
Qed.

(** Two items with fresh, distinct links are both appended. *)
Lemma merge_two_fresh E x y :
  link x <> link y -> link x ∉ links E -> link y ∉ links E ->
  length (merge_items E [x; y]).1 = length E + 2.
Proof.
  intros Hxy Hx Hy. unfold merge_items. fold (links E).
  change (foldl merge_step (E, links E, 0) [x; y])
    with (merge_step (merge_step (E, links E, 0) x) y).
  assert (merge_step (E, links E, 0) x
          = (E ++ [x], links E ∪ {[ link x ]}, 1)) as ->.
  { unfold merge_step. by rewrite decide_False. }
  assert (merge_step (E ++ [x], links E ∪ {[ link x ]}, 1) y
          = ((E ++ [x]) ++ [y], links E ∪ {[ link x ]} ∪ {[ link y ]}, 2))
    as ->.
  { unfold merge_step. rewrite decide_False; [done|].
    rewrite elem_of_union, elem_of_singleton.
    intros [?|?]; [done | congruence]. }
  simpl. rewrite (Permutation_length (sort_perm _)), !List.length_app.
  simpl. lia.
Qed.

End Run.

(** C9 (amended). The run always returns, with exit status 0: no exception
    of a company's turn leaves the loop. A company whose fetch raises keeps
    its archived list as it was. A company whose fetch succeeds with two
    qualifying items has its list grown by 2 provided the links of the two
    items differ and neither is already in its archived list. *)
Theorem main_isolates_failed_fetch
    (e : env) (fetch : string -> fetched) (now : string) (d : data) :
  exists r,
    main e fetch now d = Returns r
    /\ exit_status r = 0%Z
    /\ (forall A ex,
           A ∈ COMPANIES -> fetch (co_query A) = Failed ex ->
           companies (saved r) !! co_name A = companies d !! co_name A)
    /\ (forall B raw x y,
           B ∈ COMPANIES -> fetch (co_query B) = Fetched raw ->
           List.filter is_from_allowed_source raw = [x; y] ->
           link x <> link y ->
           link x ∉ links (default [] (companies d !! co_name B)) ->
           link y ∉ links (default [] (companies d !! co_name B)) ->
           exists merged,
             companies (saved r) !! co_name B = Some merged
             /\ length merged
                = length (default [] (companies d !! co_name B)) + 2).
Proof.
  destruct (main_spec e fetch now d) as (r & Hr & Hexit & Hown).
  exists r. split; [done|]. split; [done|]. split.
  - intros A ex HA Hf. rewrite (Hown A HA). unfold entry_after. by rewrite Hf.
  - intros B raw x y HB Hf Hq Hxy Hx Hy.
    rewrite (Hown B HB). unfold entry_after. rewrite Hf, Hq.
    change (take MAX_ITEMS_PER_FETCH [x; y]) with [x; y].
    destruct (mapM_normalize e [x; y]) as (l' & -> & Hl').
    destruct l' as [|x' [|y' [|? ?]]]; try done.
    injection Hl' as Hx' Hy'.
    eexists. split; [done|].
    apply merge_two_fresh; by rewrite ?Hx', ?Hy'.
Qed.

(** C9 (amended) at the sample feed and an empty archive. *)
Lemma main_isolates_failed_fetch_witness :
  exists r,
    main utc_env sample_fetch "2026-02-27T12:00:00+00:00" empty_data
    = Returns r
    /\ exit_status r = 0%Z
    /\ companies (saved r) !! "Novo Nordisk" = None
    /\ exists merged,
         companies (saved r) !! "Hyundai E&C" = Some merged
         /\ length merged = 2.
Proof.
  destruct (main_isolates_failed_fetch utc_env sample_fetch
              "2026-02-27T12:00:00+00:00" empty_data)
    as (r & Hr & Hexit & Hfail & Hgrow).
  exists r. split; [exact Hr|]. split; [exact Hexit|]. split.
  - apply (Hfail {| co_name := "Novo Nordisk"; co_query := "Novo Nordisk";
                    co_color := "var(--purple)";
                    co_logo := "logos/novo-nordisk.png" |} FetchError).
    + apply list_elem_of_In. simpl. tauto.
    + reflexivity.
  - apply (Hgrow {| co_name := "Hyundai E&C";
                    co_query := "Hyundai Engineering Construction";
                    co_color := "var(--coral)";
                    co_logo := "logos/hyundai-enc.png" |}
                 [wire_1; blog_post; wire_2] wire_1 wire_2).
    + apply list_elem_of_In. simpl. tauto.
    + reflexivity.
    + vm_compute. reflexivity.
    + simpl. discriminate.
    + simpl. apply not_elem_of_empty.
    + simpl. apply not_elem_of_empty.
Defined.

(** The archive of the sample is what a first run over the sample feed
    saves. *)
Lemma archived_data_from_first_run :
  exists r,
    main utc_env sample_fetch "2026-02-27T12:00:00+00:00" empty_data
    = Returns r
    /\ companies (saved r) !! "Hyundai E&C"
       = companies archived_data !! "Hyundai E&C"
    /\ total_added r = 2.
Proof.
  eexists. split; [vm_compute; reflexivity|].
  split; vm_compute; reflexivity.
Qed.

(** C9 as stated fails: when the two qualifying items of the succeeding
    company are already archived (the feed is read again before it changes),
    the run succeeds, nothing is added, and that company's list is the one
    it was instead of a list longer by 2. *)
Lemma refetched_items_do_not_grow_list :
  sample_fetch "Novo Nordisk" = Failed FetchError
  /\ sample_fetch "Hyundai Engineering Construction"
     = Fetched [wire_1; blog_post; wire_2]
  /\ List.filter is_from_allowed_source [wire_1; blog_post; wire_2]
     = [wire_1; wire_2]
  /\ exists r,
       main utc_env sample_fetch "2026-02-27T18:00:00+00:00" archived_data
       = Returns r
       /\ exit_status r = 0%Z
       /\ total_added r = 0
       /\ companies (saved r) !! "Hyundai E&C"
          = companies archived_data !! "Hyundai E&C"
       /\ length (default [] (companies (saved r) !! "Hyundai E&C"))
          <> length (default [] (companies archived_data !! "Hyundai E&C")) + 2.
Proof.
  split; [reflexivity|]. split; [reflexivity|].
  split; [vm_compute; reflexivity|].
  eexists. split; [vm_compute; reflexivity|].
  split; [reflexivity|]. split; [reflexivity|].
  split; [vm_compute; reflexivity|]. vm_compute. lia.
Qed.

(** C4 at a one-item archive and a batch with a repeated item. *)
Lemma merge_items_invariants_witness :
  NoDup (link <$> (merge_items [wire_2] [wire_1; wire_1; blog_post]).1).
Proof.
  apply (proj1 (merge_items_invariants [wire_2] [wire_1; wire_1; blog_post])).
  simpl. apply NoDup_singleton.
Defined.

(** ** Worked examples *)

Lemma title_with_publisher_suffix :
  normalize_title {| title := "Acme Corp Wins Award - Reuters"; link := "";
                     pubDate := ""; source := "" |}
  = Returns ("Acme Corp Wins Award", "Reuters").
Proof. reflexivity. Qed.

Lemma title_with_other_suffix :
  normalize_title {| title := "Talks Continue - for now"; link := "";
                     pubDate := ""; source := "" |}
  = Returns ("Talks Continue - for now", "").
Proof. reflexivity. Qed.

Lemma title_with_own_source :
  normalize_title {| title := "Ten facts about builders - Some Blog";
                     link := ""; pubDate := ""; source := "some blog" |}
  = Returns ("Ten facts about builders", "some blog").
Proof. reflexivity. Qed.

Lemma date_with_numeric_offset :
  normalize_date utc_env "Thu, 27 Feb 2026 10:30:00 +0900"
  = Returns "2026-02-27T10:30:00+09:00".
Proof. vm_compute. reflexivity. Qed.

Lemma date_with_zulu :
  normalize_date utc_env "2026-02-27T10:30:00Z"
  = Returns "2026-02-27T10:30:00+00:00".
Proof. vm_compute. reflexivity. Qed.

Lemma date_out_of_calendar :
  normalize_date utc_env "2026-02-30 10:30:00" = Returns "2026-02-30 10:30:00".
Proof. vm_compute. reflexivity. Qed.

Lemma merge_into_fresh_archive :
  merge_items [] [wire_1] = ([wire_1], 1).
Proof. vm_compute. reflexivity. Qed.

(** * Further properties *)

(** ** Archive merger *)

Section MergeMore.

Implicit Types (E B A : list item) (n : nat).

(** The loop appends a subsequence of the batch: items with pairwise
    distinct links, none of them archived. *)
Lemma merge_loop_appends B E n :
  exists A,
    foldl merge_step (E, links E, n) B = (E ++ A, links (E ++ A), n + length A)
    /\ sublist A B
    /\ NoDup (link <$> A)
    /\ (forall a, a ∈ A -> link a ∉ links E).
Proof.
  revert E n. induction B as [|it B IH]; intros E n.
  - exists []. rewrite app_nil_r, Nat.add_0_r. simpl.
    split; [done|]. split; [done|]. split; [constructor|].
    intros a Ha. by apply elem_of_nil in Ha.
  - simpl. destruct (decide (link it ∈ links E)) as [Hin|Hout].
    + destruct (IH E n) as (A & Hf & Hsub & Hnd & Hnew).
      exists A. split; [done|]. split; [by apply sublist_cons|]. done.
    + replace (links E ∪ {[ link it ]}) with (links (E ++ [it])).
      2:{ by rewrite links_app, links_cons, links_nil, (right_id_L ∅ (∪)). }
      destruct (IH (E ++ [it]) (S n)) as (A & Hf & Hsub & Hnd & Hnew).
      exists (it :: A). rewrite <- app_assoc in Hf. simpl in Hf.
      rewrite Hf. simpl. split; [f_equal; lia|].
      split; [by apply sublist_skip|].
      assert (forall a, a ∈ A -> (link a ∉ links E) /\ link a <> link it)
        as Hboth.
      { intros a Ha. specialize (Hnew a Ha).
        rewrite links_app, links_cons, links_nil, (right_id_L ∅ (∪)) in Hnew.
        rewrite elem_of_union, elem_of_singleton in Hnew. tauto. }
      split.
      * apply NoDup_cons. split; [|done].
        intros (a & Heq & Ha)%list_elem_of_fmap.
        destruct (Hboth a Ha) as [_ Hne]. congruence.
      * intros a [->|Ha]%elem_of_cons; [done|]. by apply Hboth.
Qed.

Lemma le_ltb_false s t : (s ≤ t)%string -> String.ltb t s = false.
Proof.
  unfold String.ltb, String.le, String.leb.
  rewrite (String.compare_antisym t s).
  destruct (String.compare s t); done.
Qed.

(** Sorting a list that is in order already changes nothing. *)
Lemma sort_sorted_id l : Sorted not_older l -> sort_by_pubDate_desc l = l.
Proof.
  induction 1 as [|x l Hl IH Hhd]; simpl; [done|].
  rewrite IH. destruct Hhd as [|y l Hy]; simpl; [done|].
  by rewrite le_ltb_false.
Qed.

End MergeMore.

(** X1. A merge keeps every archived item and adds a subsequence of the
    batch: the merged list is a rearrangement of the existing list followed
    by some items of the batch, taken in their order, as many as the
    returned count; each merged item is an archived one or one of the batch.
    Among items of one pubDate the order of that sequence is kept, so
    archived items stay ahead of added ones. *)
Theorem merge_items_keeps_and_appends (E B : list item) :
  exists A,
    sublist A B
    /\ length A = (merge_items E B).2
    /\ (merge_items E B).1 ≡ₚ E ++ A
    /\ forall k, filter (fun x => pubDate x = k) (merge_items E B).1
                 = filter (fun x => pubDate x = k) (E ++ A).
Proof.
  unfold merge_items. fold (links E).
  destruct (merge_loop_appends B E 0) as (A & -> & Hsub & _ & _).
  exists A. simpl. split; [done|]. split; [done|].
  split; [apply sort_perm | intros k; apply sort_stable].
Qed.



(** X3. The returned count is the number of distinct links of the batch that
    are not archived; so nothing is added exactly when every link of the
    batch is archived already. *)
Theorem merge_items_count (E B : list item) :
  (merge_items E B).2 = size (links B ∖ links E)
  /\ ((merge_items E B).2 = 0 <-> links B ⊆ links E).
Proof.
  assert ((merge_items E B).2 = size (links B ∖ links E)) as Hn.
  { unfold merge_items. fold (links E).
    destruct (merge_loop_spec B E 0) as (E' & n' & Hf & _ & _ & Hl & _).
    destruct (merge_loop_appends B E 0) as (A & Hf' & _ & Hnd & Hnew).
    rewrite Hf in Hf'. injection Hf' as -> _ ->. rewrite Hf. simpl.
    rewrite links_app in Hl.
    assert (links B ∖ links E = links A) as ->.
    { apply set_eq. intros x. rewrite elem_of_difference.
      assert (x ∈ links E ∪ links A <-> x ∈ links E ∪ links B) as Hx
        by by rewrite Hl.
      rewrite !elem_of_union in Hx. split.
      - intros [HB HE]. destruct (proj2 Hx (or_intror HB)); done.
      - intros HA. split.
        { destruct (proj1 Hx (or_intror HA)) as [HE|]; [|done].
          apply elem_of_links, list_elem_of_fmap in HA as (a & -> & Ha).
          by destruct (Hnew a Ha). }
        apply elem_of_links, list_elem_of_fmap in HA as (a & -> & Ha).
        by apply Hnew. }
    unfold links. by rewrite size_list_to_set, length_fmap. }
  split; [done|]. rewrite Hn, size_empty_iff.
  split.
  - intros H x Hx. destruct (decide (x ∈ links E)) as [|Hno]; [done|].
    assert (x ∈ links B ∖ links E) as Hd by by apply elem_of_difference.
    by apply H in Hd.
  - intros H x. split.
    + intros [Hx Hno]%elem_of_difference. destruct Hno. by apply H.
    + by intros ?%elem_of_empty.
Qed.

(** X4. Merging into a list that is in order a batch that brings no new
    link returns that very list, and the count 0. *)
Theorem merge_items_nothing_new (E B : list item) :
  Sorted not_older E -> links B ⊆ links E -> merge_items E B = (E, 0).
Proof.
  intros Hs Hsub. unfold merge_items. fold (links E).
  rewrite merge_loop_all_seen.
  - by rewrite sort_sorted_id.
  - intros it Hit. apply Hsub, elem_of_links, list_elem_of_fmap. by exists it.
Qed.

Lemma merge_items_nothing_new_witness :
  merge_items [wire_1; wire_2] [wire_2; wire_1; wire_2]
  = ([wire_1; wire_2], 0).
Proof.
  apply merge_items_nothing_new.
  - apply Sorted_cons.
    + apply Sorted_cons; [apply Sorted_nil | apply HdRel_nil].
    + apply HdRel_cons. by vm_compute.
  - intros x Hx. apply elem_of_links. apply elem_of_links in Hx.
    simpl in *. rewrite !elem_of_cons in *. tauto.
Defined.

(** ** The run, once more *)

Section RunMore.

Variable e : env.
Variable fetch : string -> fetched.

Implicit Types (cos : gmap string (list item)) (co : company).

(** What the turn of a company makes of its list: the list as it was, or
    the list merged with the normalized first qualifying items. *)
Lemma entry_after_cases (old : option (list item)) co :
  (entry_after e fetch old co = old
   /\ forall raw, fetch (co_query co) <> Fetched raw)
  \/ exists raw normalized,
       fetch (co_query co) = Fetched raw
       /\ mapM (normalize_item e)
               (take MAX_ITEMS_PER_FETCH
                     (List.filter is_from_allowed_source raw))
          = Returns normalized
       /\ link <$> normalized
          = link <$> take MAX_ITEMS_PER_FETCH
                       (List.filter is_from_allowed_source raw)
       /\ entry_after e fetch old co
          = Some (merge_items (default [] old) normalized).1.
Proof.
  unfold entry_after. destruct (fetch (co_query co)) as [raw|ex]; [|by left].
  right. destruct (mapM_normalize e
                     (take MAX_ITEMS_PER_FETCH
                           (List.filter is_from_allowed_source raw)))
    as (l' & Hl' & Hlinks).
  exists raw, l'. by rewrite Hl'.
Qed.

Lemma merge_items_fixed (E B : list item) :
  Sorted not_older E -> links B ⊆ links E -> merge_items E B = (E, 0).
Proof.
  intros Hs Hsub. unfold merge_items. fold (links E).
  rewrite merge_loop_all_seen.
  - by rewrite sort_sorted_id.
  - intros it Hit. apply Hsub, elem_of_links, list_elem_of_fmap. by exists it.
Qed.

Lemma merge_items_result (E B : list item) :
  exists A,
    merge_items E B = (sort_by_pubDate_desc (E ++ A), length A)
    /\ sublist A B
    /\ links (E ++ A) = links E ∪ links B.
Proof.
  unfold merge_items. fold (links E).
  destruct (merge_loop_spec B E 0) as (E' & n' & Hf & _ & _ & Hl & _).
  destruct (merge_loop_appends B E 0) as (A & Hf' & Hsub & _).
  rewrite Hf in Hf'. injection Hf' as -> _ ->. rewrite Hf.
  exists A. done.
Qed.

(** One turn, in full: the count grows by what the list of the company
    gains, at most [MAX_ITEMS_PER_FETCH], and no other list changes. *)
Lemma process_company_full cos n co :
  exists cos' added,
    process_company e fetch (cos, n) co = Returns (cos', n + added)
    /\ (forall k, k <> co_name co -> cos' !! k = cos !! k)
    /\ cos' !! co_name co = entry_after e fetch (cos !! co_name co) co
    /\ length (default [] (cos' !! co_name co))
       = length (default [] (cos !! co_name co)) + added
    /\ added <= MAX_ITEMS_PER_FETCH.
Proof.
  unfold process_company, try_company, entry_after.
  destruct (fetch (co_query co)) as [raw|ex].
  2:{ exists cos, 0. rewrite Nat.add_0_r. repeat split; [done | lia..]. }
  destruct (mapM_normalize e
              (take MAX_ITEMS_PER_FETCH
                    (List.filter is_from_allowed_source raw)))
    as (l' & -> & Hlinks).
  destruct (merge_items_result (default [] (cos !! co_name co)) l')
    as (A & -> & Hsub & _).
  exists (<[co_name co := sort_by_pubDate_desc
                            (default [] (cos !! co_name co) ++ A)]> cos),
         (length A).
  split; [done|]. split; [intros k Hk; by rewrite lookup_insert_ne|].
  rewrite lookup_insert_eq. split; [done|]. simpl.
  rewrite (Permutation_length (sort_perm _)), List.length_app.
  split; [done|].
  apply sublist_length in Hsub.
  assert (length l' <= MAX_ITEMS_PER_FETCH); [|lia].
  rewrite <- (length_fmap link l'), Hlinks, length_fmap, length_take. lia.
Qed.

Lemma archive_size_frame cos cos' (cs : list company) :
  (forall co, co ∈ cs -> cos' !! co_name co = cos !! co_name co) ->
  archive_size cos' cs = archive_size cos cs.
Proof.
  unfold archive_size. induction cs as [|c cs IH]; intros H; [done|].
  rewrite !fmap_cons. simpl. rewrite (H c) by left.
  rewrite IH; [done|]. intros co Hco. apply H. by right.
Qed.

Lemma process_companies_full cs : forall cos n,
  NoDup (co_name <$> cs) ->
  exists cos' n',
    process_companies e fetch (cos, n) cs = Returns (cos', n')
    /\ (forall k, k ∉ co_name <$> cs -> cos' !! k = cos !! k)
    /\ (forall co, co ∈ cs ->
          cos' !! co_name co = entry_after e fetch (cos !! co_name co) co)
    /\ archive_size cos' cs + n = archive_size cos cs + n'
    /\ n' <= n + MAX_ITEMS_PER_FETCH * length cs.
Proof.
  induction cs as [|c cs IH]; intros cos n Hnd.
  - exists cos, n. split; [done|]. split; [done|].
    split; [intros co Hco; by apply elem_of_nil in Hco|].
    split; [done | simpl; lia].
  - rewrite fmap_cons in Hnd. apply NoDup_cons in Hnd as [Hc Hnd].
    destruct (process_company_full cos n c)
      as (cos1 & added & H1 & Hframe & Hown & Hlen & Hmax).
    destruct (IH cos1 (n + added) Hnd)
      as (cos' & n' & H' & Hframe' & Hown' & Hsize & Hbound).
    exists cos', n'.
    change (process_companies e fetch (cos, n) (c :: cs))
      with (match process_company e fetch (cos, n) c with
            | Returns st' => process_companies e fetch st' cs
            | Raises ex => Raises ex
            | Diverges => Diverges
            end).
    rewrite H1. split; [done|].
    assert (forall co, co ∈ cs -> co_name co <> co_name c) as Hne.
    { intros co Hco Heq. apply Hc. rewrite <- Heq.
      apply list_elem_of_fmap. by exists co. }
    split; [|split; [|split]].
    + intros k Hk. rewrite fmap_cons in Hk.
      apply not_elem_of_cons in Hk as [Hkc Hk].
      by rewrite Hframe', Hframe.
    + intros co [->|Hco]%elem_of_cons.
      * by rewrite Hframe', Hown.
      * rewrite Hown' by done. by rewrite Hframe by by apply Hne.
    + rewrite (archive_size_frame cos cos1 cs) in Hsize.
      2:{ intros co Hco. apply Hframe. by apply Hne. }
      unfold archive_size in *. rewrite !fmap_cons. simpl.
      rewrite (Hframe' (co_name c)) by done. lia.
    + simpl. unfold MAX_ITEMS_PER_FETCH in *. lia.
Qed.

(** The configured companies get their metadata, other entries stay. *)
Lemma upsert_meta_all (cs : list company) : forall m,
  NoDup (co_name <$> cs) ->
  (forall co, co ∈ cs ->
      foldl upsert_meta m cs !! co_name co = Some (meta_of co))
  /\ (forall k, k ∉ co_name <$> cs -> foldl upsert_meta m cs !! k = m !! k).
Proof.
  induction cs as [|c cs IH]; intros m Hnd.
  - split; [intros co Hco; by apply elem_of_nil in Hco | done].
  - rewrite fmap_cons in Hnd. apply NoDup_cons in Hnd as [Hc Hnd].
    destruct (IH (upsert_meta m c) Hnd) as [Hin Hout]. simpl. split.
    + intros co [->|Hco]%elem_of_cons; [|by apply Hin].
      rewrite Hout by done. unfold upsert_meta. by rewrite lookup_insert_eq.
    + intros k Hk.
      apply not_elem_of_cons in Hk as [Hkc Hk].
      rewrite Hout by done. unfold upsert_meta. by rewrite lookup_insert_ne.
Qed.

(** No turn loses an archived item. *)
Lemma entry_after_keeps (o : option (list item)) co old :
  o = Some old ->
  exists new, entry_after e fetch o co = Some new /\ old ⊆+ new.
Proof.
  intros ->.
  destruct (entry_after_cases (Some old) co)
    as [[-> _] | (raw & l' & _ & _ & _ & ->)]; [by exists old|].
  change (default [] (Some old)) with old.
  destruct (merge_items_result old l') as (A & -> & _). simpl.
  eexists. split; [done|]. rewrite sort_perm. by apply submseteq_inserts_r.
Qed.

(** After a run, the turn of a configured company changes nothing. *)
Lemma process_company_settled cos n co (o : option (list item)) :
  cos !! co_name co = entry_after e fetch o co ->
  process_company e fetch (cos, n) co = Returns (cos, n).
Proof.
  intros Hentry. unfold process_company, try_company.
  destruct (entry_after_cases o co)
    as [[_ Hfail] | (raw & l' & Hf & Hm & _ & Hafter)].
  - destruct (fetch (co_query co)) as [raw|ex]; [by destruct (Hfail raw) | done].
  - rewrite Hf, Hm, Hentry, Hafter. simpl.
    destruct (merge_items_result (default [] o) l') as (A & HA & _ & Hl).
    rewrite HA. simpl. rewrite merge_items_fixed.
    + rewrite insert_id, Nat.add_0_r; [done|].
      by rewrite Hentry, Hafter, HA.
    + apply sort_sorted.
    + rewrite (links_perm _ _ (sort_perm _)), Hl.
      intros x Hx. apply elem_of_union. by right.
Qed.

Lemma process_companies_settled (cs : list company) cos n :
  (forall co, co ∈ cs ->
      exists o, cos !! co_name co = entry_after e fetch o co) ->
  process_companies e fetch (cos, n) cs = Returns (cos, n).
Proof.
  induction cs as [|c cs IH]; intros H; simpl; [done|].
  destruct (H c) as [o Ho]; [by left|].
  rewrite (process_company_settled cos n c o Ho).
  apply IH. intros co Hco. apply H. by right.
Qed.

End RunMore.

(** X5. Every run writes the metadata of every configured company, keeps
    the metadata and the archived list of every other name, and stamps the
    document with the time of saving. *)
Theorem main_upserts_meta
    (e : env) (fetch : string -> fetched) (now : string) (d : data) :
  exists r,
    main e fetch now d = Returns r
    /\ lastUpdated (saved r) = now
    /\ (forall co, co ∈ COMPANIES ->
          companyMeta (saved r) !! co_name co = Some (meta_of co))
    /\ (forall k, k ∉ co_name <$> COMPANIES ->
          companyMeta (saved r) !! k = companyMeta d !! k
          /\ companies (saved r) !! k = companies d !! k).
Proof.
  unfold main.
  destruct (process_companies_full e fetch COMPANIES (companies d) 0
              COMPANIES_names_distinct) as (cos' & n' & -> & Hframe & _).
  destruct (upsert_meta_all COMPANIES (companyMeta d)
              COMPANIES_names_distinct) as [Hin Hout].
  eexists. split; [done|]. simpl. split; [done|]. split; [exact Hin|].
  intros k Hk. split; [by apply Hout | by apply Hframe].
Qed.

Lemma main_upserts_meta_witness :
  exists r,
    main utc_env sample_fetch "2026-02-27T12:00:00+00:00" archived_data
    = Returns r
    /\ companyMeta (saved r) !! "Kiwoom Securities"
       = Some {| m_color := "var(--teal)"; m_query := "Kiwoom Securities";
                 m_logo := "logos/kiwoom-securities.png" |}
    /\ companies (saved r) !! "Acme" = None.
Proof.
  destruct (main_upserts_meta utc_env sample_fetch
              "2026-02-27T12:00:00+00:00" archived_data)
    as (r & Hr & _ & Hin & Hout).
  exists r. split; [exact Hr|]. split.
  - apply (Hin {| co_name := "Kiwoom Securities";
                  co_query := "Kiwoom Securities";
                  co_color := "var(--teal)";
                  co_logo := "logos/kiwoom-securities.png" |}).
    apply list_elem_of_In. simpl. tauto.
  - assert ("Acme" ∉ co_name <$> COMPANIES) as Hno.
    { intros H. apply list_elem_of_In in H. simpl in H.
      repeat destruct H as [H|H]; try discriminate H. exact H. }
    rewrite (proj2 (Hout "Acme" Hno)). reflexivity.
Defined.

(** X6. A run never loses an archived item: every list of the loaded
    document is contained, with multiplicity, in the list saved under the
    same name. *)
Theorem main_never_drops
    (e : env) (fetch : string -> fetched) (now : string) (d : data) :
  exists r,
    main e fetch now d = Returns r
    /\ forall k old, companies d !! k = Some old ->
         exists new, companies (saved r) !! k = Some new /\ old ⊆+ new.
Proof.
  unfold main.
  destruct (process_companies_full e fetch COMPANIES (companies d) 0
              COMPANIES_names_distinct) as (cos' & n' & -> & Hframe & Hown & _).
  eexists. split; [done|]. simpl. intros k old Hk.
  destruct (decide (k ∈ co_name <$> COMPANIES)) as [Hin|Hout].
  - apply list_elem_of_fmap in Hin as (co & -> & Hco).
    rewrite (Hown co Hco). by apply entry_after_keeps.
  - rewrite (Hframe k Hout). by exists old.
Qed.

Lemma main_never_drops_witness :
  exists r new,
    main utc_env sample_fetch "2026-02-27T18:00:00+00:00" archived_data
    = Returns r
    /\ companies (saved r) !! "Hyundai E&C" = Some new
    /\ default [] (companies archived_data !! "Hyundai E&C") ⊆+ new.
Proof.
  destruct (main_never_drops utc_env sample_fetch
              "2026-02-27T18:00:00+00:00" archived_data) as (r & Hr & Hkeep).
  destruct (Hkeep "Hyundai E&C" _ eq_refl) as (new & Hnew & Hsub).
  exists r, new. split; [exact Hr|]. split; [exact Hnew | exact Hsub].
Defined.

(** X7. The total that a run reports is the number of items by which the
    lists of the configured companies have grown together, and it is at
    most [MAX_ITEMS_PER_FETCH] per company. *)
Theorem main_total_added
    (e : env) (fetch : string -> fetched) (now : string) (d : data) :
  exists r,
    main e fetch now d = Returns r
    /\ archive_size (companies (saved r)) COMPANIES
       = archive_size (companies d) COMPANIES + total_added r
    /\ total_added r <= MAX_ITEMS_PER_FETCH * length COMPANIES.
Proof.
  unfold main.
  destruct (process_companies_full e fetch COMPANIES (companies d) 0
              COMPANIES_names_distinct)
    as (cos' & n' & -> & _ & _ & Hsize & Hbound).
  eexists. split; [done|]. simpl in *. split; lia.
Qed.

(** X8. For a configured company whose fetch succeeds, the links saved are
    the links archived before together with the links of the first
    [MAX_ITEMS_PER_FETCH] qualifying items of the feed: each of those is
    archived, and nothing else is. *)
Theorem main_archives_first_qualifying
    (e : env) (fetch : string -> fetched) (now : string) (d : data)
    (co : company) (raw : list item) :
  co ∈ COMPANIES -> fetch (co_query co) = Fetched raw ->
  exists r new,
    main e fetch now d = Returns r
    /\ companies (saved r) !! co_name co = Some new
    /\ links new
       = links (default [] (companies d !! co_name co))
         ∪ links (take MAX_ITEMS_PER_FETCH
                       (List.filter is_from_allowed_source raw)).
Proof.
  intros Hco Hf. unfold main.
  destruct (process_companies_full e fetch COMPANIES (companies d) 0
              COMPANIES_names_distinct) as (cos' & n' & -> & _ & Hown & _).
  specialize (Hown co Hco).
  destruct (entry_after_cases e fetch (companies d !! co_name co) co)
    as [[_ Hfail] | (raw' & l' & Hf' & _ & Hlinks & Hafter)];
    [by destruct (Hfail raw)|].
  rewrite Hf in Hf'. injection Hf' as <-. rewrite Hafter in Hown.
  destruct (merge_items_result (default [] (companies d !! co_name co)) l')
    as (A & HA & _ & Hl).
  rewrite HA in Hown. simpl in Hown.
  eexists _, _. split; [done|]. simpl. split; [exact Hown|].
  rewrite (links_perm _ _ (sort_perm _)), Hl.
  f_equal. unfold links. by rewrite Hlinks.
Qed.

Lemma main_archives_first_qualifying_witness :
  exists r new,
    main utc_env sample_fetch "2026-02-27T12:00:00+00:00" empty_data
    = Returns r
    /\ companies (saved r) !! "Hyundai E&C" = Some new
    /\ links new = links [] ∪ links [wire_1; wire_2].
Proof.
  apply (main_archives_first_qualifying utc_env sample_fetch
           "2026-02-27T12:00:00+00:00" empty_data
           {| co_name := "Hyundai E&C";
              co_query := "Hyundai Engineering Construction";
              co_color := "var(--coral)";
              co_logo := "logos/hyundai-enc.png" |}
           [wire_1; blog_post; wire_2]).
  - apply list_elem_of_In. simpl. tauto.
  - reflexivity.
Defined.

(** X9. Running again over the same feeds changes no archived list and adds
    nothing: the run of the document that a run has saved returns the same
    lists, the same metadata, and the total 0. *)
Theorem main_rerun_adds_nothing
    (e : env) (fetch : string -> fetched) (now now' : string) (d : data) :
  exists r r',
    main e fetch now d = Returns r
    /\ main e fetch now' (saved r) = Returns r'
    /\ companies (saved r') = companies (saved r)
    /\ companyMeta (saved r') = companyMeta (saved r)
    /\ total_added r' = 0.
Proof.
  unfold main.
  destruct (process_companies_full e fetch COMPANIES (companies d) 0
              COMPANIES_names_distinct) as (cos' & n' & -> & _ & Hown & _).
  pose proof (process_companies_settled e fetch COMPANIES cos' 0) as Hset.
  eexists _, _. split; [reflexivity|]. cbn [companies saved companyMeta].
  rewrite Hset by (intros co Hco; eexists; by apply Hown).
  split; [reflexivity|]. cbn [companies saved companyMeta total_added].
  split; [done|]. split; [|done].
  destruct (upsert_meta_all COMPANIES (companyMeta d)
              COMPANIES_names_distinct) as [Hin Hout].
  destruct (upsert_meta_all COMPANIES
              (foldl upsert_meta (companyMeta d) COMPANIES)
              COMPANIES_names_distinct) as [Hin' Hout'].
  apply map_eq. intros k.
  destruct (decide (k ∈ co_name <$> COMPANIES)) as [Hk|Hk].
  - apply list_elem_of_fmap in Hk as (co & -> & Hco).
    by rewrite Hin', Hin.
  - by rewrite Hout'.
Qed.

(** ** Title normalizer, once more *)

Section TitleMore.

Implicit Types ttl cur s t h : string.

Lemma is_substring_refl s : is_substring s s.
Proof.
  exists "", "". rewrite app_empty_l.
  induction s as [|c s IH]; [done|]. rewrite app_cons. by rewrite <- IH.
Qed.

Lemma app_assoc_str s t u : (s +:+ t) +:+ u = s +:+ (t +:+ u).
Proof.
  induction s as [|c s IH]; [done|]. rewrite !app_cons. by rewrite IH.
Qed.

Lemma app_empty_r s : s +:+ "" = s.
Proof. induction s as [|c s IH]; [done|]. rewrite app_cons. by rewrite IH. Qed.

Lemma is_substring_trans s t u :
  is_substring s t -> is_substring t u -> is_substring s u.
Proof.
  intros (p1 & q1 & ->) (p2 & q2 & ->).
  exists (p2 +:+ p1), (q1 +:+ q2). by rewrite !app_assoc_str.
Qed.

Lemma strip_substring s : is_substring (PyStr.strip s) s.
Proof. destruct (strip_trimmed s) as (l & r & Hs & _). by exists l, r. Qed.

Lemma strip_idem s : PyStr.strip (PyStr.strip s) = PyStr.strip s.
Proof.
  symmetry. apply trimmed_strip.
  destruct (strip_trimmed s) as (l & r & _ & _ & _ & Hb & He).
  exists "", "". rewrite app_empty_l, app_empty_r. done.
Qed.

Lemma strip_no_space s : ~ begins_with_space (PyStr.strip s).
Proof. by destruct (strip_trimmed s) as (l & r & _ & _ & _ & Hb & _). Qed.

(** Without white space in front, trimming leaves an initial part. *)
Lemma strip_prefix s :
  ~ begins_with_space s -> exists r, s = PyStr.strip s +:+ r.
Proof.
  intros Hb. unfold PyStr.strip. rewrite (lstrip_id s Hb).
  destruct (rstrip_spec s) as (r & Hs & _). by exists r.
Qed.

Lemma begins_app s t :
  s <> "" -> begins_with_space (s +:+ t) <-> begins_with_space s.
Proof. by destruct s. Qed.

(** A pass that strips cuts the title at its last delimiter. *)
Lemma strip_pass_again ttl cur ttl' cur' :
  strip_pass ttl cur = Again ttl' cur' ->
  exists h t, ttl = h +:+ SEP +:+ t /\ ttl' = PyStr.strip h
              /\ cur' = (if PyStr.truthy cur then cur else PyStr.strip t)
              /\ (is_source (PyStr.strip t) = true \/ cur <> "").
Proof.
  pose proof (strip_pass_cases ttl cur) as H.
  destruct (PyStr.rpartition SEP ttl) as [[h t]|] eqn:E; rewrite H; [|done].
  destruct (is_source (PyStr.strip t)) eqn:Es; simpl.
  - intros [= <- <-]. exists h, t. split; [by apply rpartition_app|]. tauto.
  - destruct cur as [|c cur]; simpl; [done|].
    destruct (String.eqb _ _); [|done].
    intros [= <- <-]. exists h, t. split; [by apply rpartition_app|].
    split; [done|]. split; [done|]. by right.
Qed.

(** The state the loop returns is one it leaves at once. *)
Lemma strip_loop_leaves fuel ttl cur r :
  strip_loop fuel ttl cur = Returns r -> strip_pass r.1 r.2 = Leave.
Proof.
  revert ttl cur. induction fuel as [|fuel IH]; intros ttl cur; [done|].
  simpl. destruct (strip_pass ttl cur) as [ttl' cur'| |ex] eqn:E; [| |done].
  - apply IH.
  - by intros [= <-].
Qed.

(** The returned title is a part of the title the loop starts from; it is
    an initial part, and has no white space in front, when the title has
    none; it is trimmed when the title is. *)
Lemma strip_loop_title fuel ttl cur r :
  strip_loop fuel ttl cur = Returns r ->
  is_substring r.1 ttl
  /\ String.length r.1 <= String.length ttl
  /\ (~ begins_with_space ttl -> exists rest, ttl = r.1 +:+ rest)
  /\ (PyStr.strip ttl = ttl -> PyStr.strip r.1 = r.1).
Proof.
  revert ttl cur. induction fuel as [|fuel IH]; intros ttl cur; [done|].
  simpl. destruct (strip_pass ttl cur) as [ttl' cur'| |ex] eqn:E; [| |done].
  - intros Hr. apply strip_pass_again in E as (h & t & -> & -> & _ & _).
    destruct (IH _ _ Hr) as (Hsub & Hlen & Hpre & Htrim).
    pose proof (length_strip h). rewrite !str_length_app.
    split; [|split; [lia|split]].
    + eapply is_substring_trans; [exact Hsub|].
      eapply is_substring_trans; [apply strip_substring|].
      exists "", (SEP +:+ t). by rewrite app_empty_l.
    + intros Hb.
      destruct (Hpre (strip_no_space h)) as [rest1 Hrest1].
      assert (~ begins_with_space h) as Hbh.
      { destruct h as [|c h]; [simpl; tauto|].
        intros Hh. apply Hb. by apply begins_app. }
      destruct (strip_prefix h Hbh) as [rest2 Hrest2].
      exists (rest1 +:+ rest2 +:+ SEP +:+ t).
      rewrite Hrest2 at 1. rewrite Hrest1 at 1.
      by rewrite !app_assoc_str.
    + intros _. apply Htrim, strip_idem.
  - intros [= <-]. simpl. split; [apply is_substring_refl|].
    split; [lia|]. split; [|done].
    intros _. exists "". by rewrite app_empty_r.
Qed.

Lemma is_source_empty : is_source "" = false.
Proof. reflexivity. Qed.

(** From an empty source the loop returns either the state it started from
    or a shorter title with an allow-listed name adopted as the source. *)
Lemma strip_loop_adopts fuel ttl r :
  strip_loop fuel ttl "" = Returns r ->
  (r = (ttl, ""))
  \/ (is_source r.2 = true /\ String.length r.1 < String.length ttl).
Proof.
  destruct fuel as [|fuel]; [done|]. simpl.
  destruct (strip_pass ttl "") as [ttl' cur'| |ex] eqn:E; [| |done].
  - intros Hr. right.
    pose proof (strip_pass_shorter _ _ _ _ E) as Hshort.
    apply strip_pass_again in E as (h & t & _ & _ & Hcur & [Hs|Hne]); [|done].
    simpl in Hcur. subst cur'.
    assert (PyStr.strip t <> "") as Hne.
    { intros Heq. rewrite Heq in Hs. by rewrite is_source_empty in Hs. }
    destruct r as [t' s'].
    pose proof (strip_loop_keeps_source _ _ _ _ _ Hne Hr) as ->.
    destruct (strip_loop_title _ _ _ _ Hr) as (_ & Hlen & _).
    simpl in *. split; [done | lia].
  - intros [= <-]. by left.
Qed.

End TitleMore.

(** X10. Normalizing a title again changes nothing: the title and source
    that [normalize_item] gives are returned as they are when they are
    normalized once more. *)
Theorem normalize_title_idempotent (it : item) :
  exists ttl' src',
    normalize_title it = Returns (ttl', src')
    /\ forall lnk date,
         normalize_title {| title := ttl'; link := lnk; pubDate := date;
                            source := src' |}
         = Returns (ttl', src').
Proof.
  unfold normalize_title.
  destruct (strip_loop_returns (S (String.length (title it))) (title it)
              (source it)) as [[ttl' src'] Hr]; [lia|].
  exists ttl', src'. split; [done|]. intros lnk date. simpl.
  apply strip_loop_leaves in Hr. simpl in Hr. by rewrite Hr.
Qed.

(** X11. The normalized title is a part of the raw title and never longer.
    When the raw title has no white space in front, it is an initial part of
    the raw title; when the raw title is trimmed, so is the normalized
    one. *)
Theorem normalize_title_is_part (it : item) :
  exists ttl' src',
    normalize_title it = Returns (ttl', src')
    /\ is_substring ttl' (title it)
    /\ String.length ttl' <= String.length (title it)
    /\ (~ begins_with_space (title it) ->
        exists rest, title it = ttl' +:+ rest)
    /\ (PyStr.strip (title it) = title it -> PyStr.strip ttl' = ttl').
Proof.
  unfold normalize_title.
  destruct (strip_loop_returns (S (String.length (title it))) (title it)
              (source it)) as [[ttl' src'] Hr]; [lia|].
  exists ttl', src'. split; [done|].
  exact (strip_loop_title _ _ _ _ Hr).
Qed.

Lemma normalize_title_is_part_witness :
  exists ttl' src',
    normalize_title {| title := "Orders Rise  - Bloomberg - Reuters";
                       link := ""; pubDate := ""; source := "" |}
    = Returns (ttl', src')
    /\ (exists rest, "Orders Rise  - Bloomberg - Reuters" = ttl' +:+ rest)
    /\ PyStr.strip ttl' = ttl'.
Proof.
  destruct (normalize_title_is_part
              {| title := "Orders Rise  - Bloomberg - Reuters";
                 link := ""; pubDate := ""; source := "" |})
    as (ttl' & src' & Hr & _ & _ & Hpre & Htrim).
  exists ttl', src'. split; [exact Hr|]. split.
  - apply Hpre. simpl. discriminate.
  - apply Htrim. reflexivity.
Defined.

(** X12. For an item with an empty source, either nothing is stripped and
    the source stays empty, or the title gets shorter and the source that
    comes out is, up to case, an allow-listed publisher name. *)
Theorem normalize_title_adopts_allowed (it : item) :
  source it = "" ->
  exists ttl' src',
    normalize_title it = Returns (ttl', src')
    /\ ((ttl' = title it /\ src' = "")
        \/ (String.length ttl' < String.length (title it)
            /\ exists name, name ∈ ALLOWED_SOURCES /\ ci_equal src' name)).
Proof.
  intros Hsrc. unfold normalize_title. rewrite Hsrc.
  destruct (strip_loop_returns (S (String.length (title it))) (title it) "")
    as [[ttl' src'] Hr]; [lia|].
  exists ttl', src'. split; [done|].
  destruct (strip_loop_adopts _ _ _ Hr) as [[= -> ->] | [Hs Hlen]].
  - by left.
  - right. split; [done|]. by apply is_source_spec.
Qed.

Lemma normalize_title_adopts_allowed_witness :
  exists ttl' src',
    normalize_title {| title := "Orders Rise - REUTERS"; link := "";
                       pubDate := ""; source := "" |}
    = Returns (ttl', src')
    /\ ((ttl' = "Orders Rise - REUTERS" /\ src' = "")
        \/ (String.length ttl' < 21
            /\ exists name, name ∈ ALLOWED_SOURCES /\ ci_equal src' name)).
Proof.
  apply (normalize_title_adopts_allowed
           {| title := "Orders Rise - REUTERS"; link := "";
              pubDate := ""; source := "" |}).
  reflexivity.
Defined.

(** ** Feed items *)

(** X13. Every item that [fetch_rss] builds from the document has all four
    fields trimmed: no title, link, pubDate or source begins or ends with
    white space, whatever the texts of the elements are. *)
Theorem fetch_rss_items_trimmed (root : ET.element) (it : item) :
  it ∈ fetch_rss_items root ->
  PyStr.strip (title it) = title it
  /\ PyStr.strip (link it) = link it
  /\ PyStr.strip (pubDate it) = pubDate it
  /\ PyStr.strip (source it) = source it.
Proof.
  intros Hit.
  apply list_elem_of_fmap in Hit as (el & -> & _).
  unfold item_of_element. simpl.
  split; [apply strip_idem|]. split; [apply strip_idem|].
  split; [apply strip_idem|].
  destruct (ET.find "source" el) as [s|]; [|done].
  destruct (ET.text s) as [t|]; [|done].
  destruct (PyStr.truthy t); [apply strip_idem | done].
Qed.

Lemma fetch_rss_items_trimmed_witness :
  PyStr.strip "Builder shares climb - Bloomberg"
  = "Builder shares climb - Bloomberg"
  /\ PyStr.strip "https://news.example.org/articles/2"
     = "https://news.example.org/articles/2"
  /\ PyStr.strip "Fri, 27 Feb 2026 09:15:00 GMT"
     = "Fri, 27 Feb 2026 09:15:00 GMT"
  /\ PyStr.strip "" = "".
Proof.
  apply (fetch_rss_items_trimmed sample_feed
           {| title := "Builder shares climb - Bloomberg";
              link := "https://news.example.org/articles/2";
              pubDate := "Fri, 27 Feb 2026 09:15:00 GMT"; source := "" |}).
  vm_compute. apply list_elem_of_here.
Defined.



(** ** Feed address *)

Section UrlFacts.

Implicit Types s t : string.

Lemma app_cancel_r s1 s2 t : s1 +:+ t = s2 +:+ t -> s1 = s2.
Proof.
  intros H. apply (app_inj_length s1 s2 t t H).
  apply (f_equal String.length) in H. rewrite !str_length_app in H. lia.
Qed.

Lemma all_chars_app p s t :
  all_chars p (s +:+ t) = all_chars p s && all_chars p t.
Proof.
  induction s as [|c s IH]; [done|].
  rewrite app_cons. simpl. by rewrite IH, andb_assoc.
Qed.

Lemma quote_char_safe c : all_chars query_safe (Url.quote_char c) = true.
Proof. destruct c as [[] [] [] [] [] [] [] []]; reflexivity. Qed.

Lemma utf8_decode_char c bs :
  utf8_decode (Url.utf8 c ++ bs) = String c <$> utf8_decode bs.
Proof. destruct c as [[] [] [] [] [] [] [] []]; reflexivity. Qed.

Lemma unquote_quote_char c s bs :
  unquote_bytes s = Some bs ->
  unquote_bytes (Url.quote_char c +:+ s) = Some (Url.utf8 c ++ bs).
Proof.
  intros H.
  destruct c as [[] [] [] [] [] [] [] []];
    (lazy -[unquote_bytes]; cbn; rewrite ?H; reflexivity).
Qed.

Lemma unquote_quote s :
  unquote_bytes (Url.quote_plus s) = Some (flat_map Url.utf8 (String.list_ascii_of_string s)).
Proof.
  induction s as [|c s IH]; [done|]. simpl. by apply unquote_quote_char.
Qed.

Lemma utf8_decode_all s :
  utf8_decode (flat_map Url.utf8 (String.list_ascii_of_string s)) = Some s.
Proof.
  induction s as [|c s IH]; [done|].
  simpl. by rewrite utf8_decode_char, IH.
Qed.

Lemma unquote_plus_quote_plus s : unquote_plus (Url.quote_plus s) = Some s.
Proof.
  unfold unquote_plus. rewrite unquote_quote. simpl. apply utf8_decode_all.
Qed.

End UrlFacts.

(** X15. The address built for a query is the search address followed by
    the quoted query and the three fixed parameters, and the query can be
    read back from it: unquoting the quoted query gives the query, so two
    different queries never get the same address. *)
Theorem google_news_rss_url_reversible :
  (forall query,
      google_news_rss_url query
      = "https://news.google.com/rss/search?q=" +:+ Url.quote_plus query
        +:+ "&hl=en-US&gl=US&ceid=US%3Aen"
      /\ unquote_plus (Url.quote_plus query) = Some query)
  /\ (forall q1 q2,
         google_news_rss_url q1 = google_news_rss_url q2 -> q1 = q2).
Proof.
  assert (forall query,
             google_news_rss_url query
             = "https://news.google.com/rss/search?q=" +:+ Url.quote_plus query
               +:+ "&hl=en-US&gl=US&ceid=US%3Aen") as Hshape.
  { intros query. unfold google_news_rss_url, Url.urlencode. simpl.
    change (Url.quote_plus "q") with "q".
    by rewrite !app_assoc_str. }
  split.
  - intros query. split; [apply Hshape | apply unquote_plus_quote_plus].
  - intros q1 q2 H. rewrite !Hshape in H.
    apply (inj (String.app _)) in H. apply app_cancel_r in H.
    apply (f_equal unquote_plus) in H.
    rewrite !unquote_plus_quote_plus in H. by injection H.
Qed.

Lemma google_news_rss_url_reversible_witness :
  "Woori Financial Group" = "Woori Financial Group".
Proof.
  apply (proj2 google_news_rss_url_reversible).
  reflexivity.
Defined.

(** X16. Whatever the query is, every character of its quoted form is a
    letter, a digit or one of [_ . - ~ + %]: the quoted query holds no
    space, no [&], [=] or [#] and nothing beyond ASCII, so it cannot end its
    parameter or add one. *)
Theorem quote_plus_stays_in_parameter (query : string) :
  all_chars query_safe (Url.quote_plus query) = true.
Proof.
  induction query as [|c query IH]; [done|].
  change (Url.quote_plus (String c query))
    with (Url.quote_char c +:+ Url.quote_plus query).
  by rewrite all_chars_app, quote_char_safe, IH.
Qed.

(** ** Dates in the archive *)

Section IsoOrder.

Local Open Scope Z_scope.

Lemma digit_chr_code n : N_of_ascii (digit_chr n) = (48 + Z.to_N (n mod 10))%N.
Proof.
  unfold digit_chr. apply N_ascii_embedding.
  pose proof (Z.mod_pos_bound n 10 ltac:(lia)). lia.
Qed.

Lemma compare_digit a b s t :
  String.compare (String (digit_chr a) s) (String (digit_chr b) t)
  = match a mod 10 ?= b mod 10 with
    | Eq => String.compare s t
    | c => c
    end.
Proof.
  simpl. unfold Ascii.compare. rewrite !digit_chr_code.
  pose proof (Z.mod_pos_bound a 10 ltac:(lia)).
  pose proof (Z.mod_pos_bound b 10 ltac:(lia)).
  destruct (Z.compare_spec (a mod 10) (b mod 10)) as [Heq|Hlt|Hgt].
  - rewrite Heq, N.compare_refl. done.
  - assert ((48 + Z.to_N (a mod 10) ?= 48 + Z.to_N (b mod 10))%N = Lt) as ->;
      [apply N.compare_lt_iff; lia | done].
  - assert ((48 + Z.to_N (a mod 10) ?= 48 + Z.to_N (b mod 10))%N = Gt) as ->;
      [apply N.compare_gt_iff; lia | done].
Qed.

Lemma compare_pad2 a b s t :
  0 <= a < 100 -> 0 <= b < 100 ->
  String.compare (pad2 a +:+ s) (pad2 b +:+ t)
  = match a ?= b with
    | Eq => String.compare s t
    | c => c
    end.
Proof.
  intros Ha Hb.
  change (pad2 a +:+ s)
    with (String (digit_chr (a / 10)) (String (digit_chr a) s)).
  change (pad2 b +:+ t)
    with (String (digit_chr (b / 10)) (String (digit_chr b) t)).
  rewrite !compare_digit.
  pose proof (Z.div_mod a 10 ltac:(lia)).
  pose proof (Z.div_mod b 10 ltac:(lia)).
  pose proof (Z.mod_pos_bound a 10 ltac:(lia)).
  pose proof (Z.mod_pos_bound b 10 ltac:(lia)).
  assert (0 <= a / 10 < 10) by (split; [apply Z.div_pos | apply Z.div_lt_upper_bound]; lia).
  assert (0 <= b / 10 < 10) by (split; [apply Z.div_pos | apply Z.div_lt_upper_bound]; lia).
  rewrite (Z.mod_small (a / 10)), (Z.mod_small (b / 10)) by lia.
  destruct (Z.compare_spec (a / 10) (b / 10)) as [Hq|Hq|Hq];
    destruct (Z.compare_spec (a mod 10) (b mod 10)) as [Hr|Hr|Hr];
    destruct (Z.compare_spec a b) as [Hab|Hab|Hab]; try done; lia.
Qed.

Lemma compare_sep c s t :
  String.compare (String c "" +:+ s) (String c "" +:+ t) = String.compare s t.
Proof.
  change (String c "" +:+ s) with (String c s).
  change (String c "" +:+ t) with (String c t).
  simpl. unfold Ascii.compare. by rewrite N.compare_refl.
Qed.

Lemma compare_pad4 a b s t :
  0 <= a < 10000 -> 0 <= b < 10000 ->
  String.compare (pad4 a +:+ s) (pad4 b +:+ t)
  = match a ?= b with
    | Eq => String.compare s t
    | c => c
    end.
Proof.
  intros Ha Hb. unfold pad4. rewrite !app_assoc_str.
  pose proof (Z.div_mod a 100 ltac:(lia)).
  pose proof (Z.div_mod b 100 ltac:(lia)).
  pose proof (Z.mod_pos_bound a 100 ltac:(lia)).
  pose proof (Z.mod_pos_bound b 100 ltac:(lia)).
  assert (0 <= a / 100 < 100) by (split; [apply Z.div_pos | apply Z.div_lt_upper_bound]; lia).
  assert (0 <= b / 100 < 100) by (split; [apply Z.div_pos | apply Z.div_lt_upper_bound]; lia).
  rewrite !compare_pad2 by lia.
  destruct (Z.compare_spec (a / 100) (b / 100)) as [Hq|Hq|Hq];
    destruct (Z.compare_spec (a mod 100) (b mod 100)) as [Hr|Hr|Hr];
    destruct (Z.compare_spec a b) as [Hab|Hab|Hab]; try done; lia.
Qed.

Lemma days_in_month_le y m : days_in_month y m <= 31.
Proof.
  unfold days_in_month.
  destruct (m =? 2); [destruct (is_leap y); lia|].
  destruct (_ || _); lia.
Qed.

(** The ranges that the validity check grants. *)
Lemma valid_datetime_ranges dt :
  valid_datetime dt = true ->
  0 <= year dt < 10000 /\ 0 <= month dt < 100 /\ 0 <= day dt < 100
  /\ 0 <= hour dt < 100 /\ 0 <= minute dt < 100 /\ 0 <= second dt < 100.
Proof.
  unfold valid_datetime. rewrite !andb_true_iff, !Z.leb_le.
  pose proof (days_in_month_le (year dt) (month dt)). lia.
Qed.

Lemma isoformat_compare a b :
  valid_datetime a = true -> valid_datetime b = true ->
  utcoffset a = None -> utcoffset b = None ->
  String.compare (isoformat a) (isoformat b) = fields_compare a b.
Proof.
  intros Ha Hb Hoa Hob.
  apply valid_datetime_ranges in Ha, Hb.
  unfold isoformat, fields_compare. rewrite Hoa, Hob.
  rewrite compare_pad4, compare_sep by lia.
  rewrite compare_pad2, compare_sep by lia.
  rewrite compare_pad2, compare_sep by lia.
  rewrite compare_pad2, compare_sep by lia.
  rewrite compare_pad2, compare_sep by lia.
  rewrite compare_pad2 by lia.
  simpl.
  repeat (match goal with
          | |- context [?x ?= ?y] => destruct (x ?= y); try done
          end).
Qed.

End IsoOrder.

Lemma strptime_valid e data fmt dt :
  strptime e data fmt = Returns dt -> valid_datetime dt = true.
Proof.
  unfold strptime. repeat case_match; try done. by intros [= <-].
Qed.

(** X17. For two dates that [strptime] parses without a UTC offset, the
    order of the rendered strings is the order of the dates: comparing the
    two [isoformat] strings gives what comparing year, month, day, hour,
    minute and second in turn gives. *)
Theorem isoformat_preserves_order
    (e : env) (raw1 raw2 fmt1 fmt2 : string) (dt1 dt2 : datetime) :
  strptime e raw1 fmt1 = Returns dt1 ->
  strptime e raw2 fmt2 = Returns dt2 ->
  utcoffset dt1 = None -> utcoffset dt2 = None ->
  String.compare (isoformat dt1) (isoformat dt2) = fields_compare dt1 dt2.
Proof.
  intros H1 H2 Ho1 Ho2.
  apply isoformat_compare; [by eapply strptime_valid.. | done | done].
Qed.

Lemma isoformat_preserves_order_witness :
  String.compare "2026-02-26T08:00:00" "2026-02-27T09:15:00" = Lt.
Proof.
  apply (isoformat_preserves_order utc_env
           "Thu, 26 Feb 2026 08:00:00 GMT" "2026-02-27 09:15:00"
           "%a, %d %b %Y %H:%M:%S %Z" "%Y-%m-%d %H:%M:%S"
           {| year := 2026; month := 2; day := 26; hour := 8; minute := 0;
              second := 0; utcoffset := None |}
           {| year := 2026; month := 2; day := 27; hour := 9; minute := 15;
              second := 0; utcoffset := None |}).
  - vm_compute. reflexivity.
  - vm_compute. reflexivity.
  - reflexivity.
  - reflexivity.
Defined.



(** ** Filter and normalizer together *)

Section FilterMore.

Lemma lower_app s t : PyStr.lower (s +:+ t) = PyStr.lower s +:+ PyStr.lower t.
Proof.
  induction s as [|c s IH]; [done|]. rewrite app_cons. simpl.
  by rewrite IH.
Qed.

Lemma lower_substring s t :
  is_substring s t -> is_substring (PyStr.lower s) (PyStr.lower t).
Proof.
  intros (p & q & ->). exists (PyStr.lower p), (PyStr.lower q).
  by rewrite !lower_app.
Qed.

End FilterMore.

(** X19. An item with an empty source from whose title the normalizer takes
    a publisher passes the source filter: whenever normalization gives such
    an item a source, [is_from_allowed_source] is true of the raw item. *)
Theorem adopted_source_qualifies (it : item) (ttl' src' : string) :
  source it = "" ->
  normalize_title it = Returns (ttl', src') ->
  src' <> "" ->
  is_from_allowed_source it = true.
Proof.
  intros Hsrc Hr Hne. unfold normalize_title in Hr. rewrite Hsrc in Hr.
  simpl in Hr.
  destruct (strip_pass (title it) "") as [t1 c1| |ex] eqn:E; [| |done].
  2:{ by injection Hr as _ <-. }
  apply strip_pass_again in E as (h & t & Htitle & _ & _ & [Hs|?]); [|done].
  apply is_source_spec in Hs as (name & Hin & Hci).
  unfold is_from_allowed_source. apply existsb_exists.
  exists name. split; [by apply list_elem_of_In|].
  apply orb_true_iff. left. apply contains_spec.
  unfold ci_equal in Hci. rewrite <- Hci.
  apply lower_substring. rewrite Htitle.
  eapply is_substring_trans; [apply strip_substring|].
  exists (h +:+ SEP), "". by rewrite app_empty_r, app_assoc_str.
Qed.

Lemma adopted_source_qualifies_witness :
  is_from_allowed_source
    {| title := "Orders Rise - REUTERS"; link := ""; pubDate := "";
       source := "" |} = true.
Proof.
  apply (adopted_source_qualifies
           {| title := "Orders Rise - REUTERS"; link := ""; pubDate := "";
              source := "" |} "Orders Rise" "REUTERS").
  - reflexivity.
  - vm_compute. reflexivity.
  - discriminate.
Defined.
